(** * ws_ohlc_simulator.js: a shallow embedding of the subscription-broadcast core

    The embedding follows [src/ws_ohlc_simulator.js] function by function.

    Conventions.
    - JavaScript numbers that carry prices are exact rationals ([Q]); the
      binary64 rounding of each arithmetic operation is not modelled, while
      the decimal rounding [+(x).toFixed(4)] is ([toFixed4]).  Counters and
      epoch milliseconds are integers ([Z]).
    - [Math.random()] and the clock are oracles kept in an environment
      ([Env]); code that reads them lives in the monad [M].  The clock never
      runs backwards: each read is the previous one plus a lag.
    - The host's time zone is a parameter [tz], the function that
      [getTimezoneOffset()] computes.
    - A JavaScript [Set] is its insertion-ordered list of members; the object
      [instruments] is the association list of its own properties, in
      insertion order (the order of [Object.keys]).
    - [new Date().toISOString()] is represented by the epoch milliseconds it
      prints.
    - The process is an event loop ([step], [run]) that reacts to client
      events and to the one pending timer.

    The file has four parts: the program, the notions that the statements
    use, lemmas about the program, and the claims C1 to C10 in order. *)

From Stdlib Require Import ZArith QArith Qround Qabs List Ascii String Bool
  Lia Lqa.
Import ListNotations.

Local Open Scope Z_scope.

(** ** Constants (lines 13-16) *)

Definition BROADCAST_INTERVAL_MS : Z := 800.
Definition MAX_RATE_PER_SECOND : Z := 50.
Definition IST_OFFSET_MINUTES : Z := 330.

(** ** Numbers *)

Definition Qltb (x y : Q) : bool := negb (Qle_bool y x).
Definition Qnonzero (x : Q) : bool := negb (Qeq_bool x 0).

(** [+(x).toFixed(4)]: the sign is split off, the magnitude is scaled by
    10^4 and rounded to the nearest integer, ties going to the larger one,
    and the decimal string is read back as a number. *)
Definition toFixed4 (x : Q) : Q :=
  let n := Qfloor (Qabs x * 10000 + (1 # 2)) in
  if Qltb x 0 then (- n) # 10000 else n # 10000.

(** ** Instrument store (lines 21-59) *)

Record Base := mkBase {
  b_open : Q; b_high : Q; b_low : Q; b_close : Q; b_volume : Z }.

Definition BASE_OHLC : list (string * Base) := [
  ("AAPL"%string, mkBase 228.5 232.4 227.9 231.85 58200000);
  ("TSLA"%string, mkBase 405.2 410.1 404.1 409.35 23400000);
  ("MSFT"%string, mkBase 167.8 170.25 167.1 169.95 26800000);
  ("GOOG"%string, mkBase 148.5 152.3 147.9 151.75 51200000);
  ("AMZN"%string, mkBase 1250.0 1286.4 1245.5 1280.75 312500000);
  ("NVDA"%string, mkBase 427.4 432.25 426.1 431.1 3900000);
  ("META"%string, mkBase 172.8 175.75 172.2 175.1 12800000);
  ("NFLX"%string, mkBase 244.1 248.55 243.2 247.6 7800000);
  ("JPM"%string, mkBase 410.2 417.4 409.8 416.25 3600000);
  ("BAC"%string, mkBase 32.7 33.25 32.4 33.05 42600000);
  ("INTC"%string, mkBase 254.2 261.8 253.1 259.7 102000000);
  ("ORCL"%string, mkBase 160.3 163.6 159.85 162.75 13200000);
  ("IBM"%string, mkBase 147.4 149.8 146.9 149.1 7500000);
  ("CSCO"%string, mkBase 58.4 59.65 58.1 59.2 14500000);
  ("SAP"%string, mkBase 168.8 171.9 168.2 171.25 5850000);
  ("ADBE"%string, mkBase 155.4 157.85 155.0 157.1 9200000);
  ("UBER"%string, mkBase 525.1 531.4 523.8 530.2 3580000);
  ("LYFT"%string, mkBase 103.7 106.4 103.1 105.85 11400000);
  ("SNAP"%string, mkBase 98.2 100.85 97.8 100.25 8750000);
  ("TWTR"%string, mkBase 595.4 612.1 594.3 608.5 5250000) ].

Record Instrument := mkInstrument {
  symbol : string;
  date : string;
  open_price : Q;
  high_price : Q;
  low_price : Q;
  close_price : Q;
  volume : Z;
  ts : Z }.

(** The object [instruments]: own properties in insertion order. *)
Definition Store := list (string * Instrument).

(** Lines 45-59; the clock reads of the start-up are taken as one instant. *)
Definition init_instruments (todayDate : string) (now : Z) : Store :=
  map (fun kb : string * Base =>
         let (sym, b) := kb in
         (sym, mkInstrument sym todayDate (b_open b) (b_high b) (b_low b)
                            (b_close b) (b_volume b) now))
      BASE_OHLC.

Definition Object_keys (store : Store) : list string := map fst store.

(** Own-property read [instruments[sym]]. *)
Fixpoint own (store : Store) (sym : string) : option Instrument :=
  match store with
  | [] => None
  | (k, v) :: rest => if String.eqb k sym then Some v else own rest sym
  end.

(** In-place mutation of the object stored under [sym]. *)
Fixpoint store_set (store : Store) (sym : string) (v : Instrument) : Store :=
  match store with
  | [] => []
  | (k, w) :: rest =>
      if String.eqb k sym then (k, v) :: rest
      else (k, w) :: store_set rest sym v
  end.

(** ** Oracles and the monad *)

Definition in_unit (q : Q) : bool := Qle_bool 0 q && Qltb q 1.

(** A result of [Math.random()]: a number in [0, 1). *)
Record Rand01 := mkRand { rv : Q; rv_ok : in_unit rv = true }.

(** [rnd]: the results of the coming [Math.random()] calls; [lags]: the
    milliseconds that pass before each coming clock read; [clock]: the
    epoch milliseconds of the latest read. *)
Record Env := mkEnv { rnd : list Rand01; lags : list N; clock : Z }.

Inductive result (A : Type) : Type :=
| Ret (a : A) (e : Env)
| Starved                (* an oracle ran dry: the run is cut off here *)
| Threw (err : string).  (* an uncaught exception *)
Arguments Ret {A} a e.
Arguments Starved {A}.
Arguments Threw {A} err.

Definition M (A : Type) : Type := Env -> result A.

Definition ret {A} (a : A) : M A := fun e => Ret a e.

Definition bind {A B} (c : M A) (k : A -> M B) : M B :=
  fun e => match c e with
           | Ret a e' => k a e'
           | Starved => Starved
           | Threw err => Threw err
           end.

Definition throw {A} (err : string) : M A := fun _ => Threw err.

Declare Scope sim_scope.
Delimit Scope sim_scope with sim.
Notation "x <- c ;; k" := (bind c (fun x => k))
  (at level 61, c at next level, right associativity) : sim_scope.
Notation "' p <- c ;; k" := (bind c (fun x => let 'p := x in k))
  (at level 61, p pattern, c at next level, right associativity) : sim_scope.
Local Open Scope sim_scope.

Definition Math_random : M Rand01 :=
  fun e => match rnd e with
           | [] => Starved
           | r :: rs => Ret r (mkEnv rs (lags e) (clock e))
           end.

(** [Date.now()], [new Date()]: time moves on by the next lag, then is read. *)
Definition Date_now : M Z :=
  fun e => match lags e with
           | [] => Starved
           | d :: ds => let t := clock e + Z.of_N d in
                        Ret t (mkEnv (rnd e) ds t)
           end.

(** ** Helpers (lines 64-120) *)

Definition randPct (maxPct : Q) : M Q :=
  r <- Math_random ;;
  ret ((rv r * 2 - 1) * maxPct)%Q.

(** Lines 70-76 once [pct], the second [Math.random()] and the clock are
    known. *)
Definition simulateTick_at (pct : Q) (r : Rand01) (now : Z)
    (state : Instrument) : Instrument :=
  let newPrice := toFixed4 (close_price state * (1 + pct)) in
  let high := if Qltb (high_price state) newPrice then newPrice
              else high_price state in
  let low := if Qltb newPrice (low_price state) then newPrice
             else low_price state in
  let vol := volume state + Qfloor (5000 + rv r * 20000) in
  mkInstrument (symbol state) (date state) (open_price state)
               high low newPrice vol now.

Definition simulateTick (state : Instrument) : M Instrument :=
  pct <- randPct 0.004 ;;
  r <- Math_random ;;
  now <- Date_now ;;
  ret (simulateTick_at pct r now state).

Record Meta := mkMeta {
  subs : list string;
  lastWindowStart : Z;
  sentInWindow : Z }.

Definition allowSendRate_at (now : Z) (meta : Meta) : bool * Meta :=
  let meta1 :=
    if (lastWindowStart meta =? 0) || (1000 <? now - lastWindowStart meta)
    then mkMeta (subs meta) now 0
    else meta in
  if MAX_RATE_PER_SECOND <=? sentInWindow meta1 then (false, meta1)
  else (true, mkMeta (subs meta1) (lastWindowStart meta1)
                     (sentInWindow meta1 + 1)).

Definition allowSendRate (meta : Meta) : M (bool * Meta) :=
  now <- Date_now ;;
  ret (allowSendRate_at now meta).

Record Quote := mkQuote {
  q_symbol : string;
  q_last : Q;
  q_open : Q;
  q_high : Q;
  q_low : Q;
  q_volume : Z;
  day_change : Q;
  day_change_percent : Q;
  event_ts : Z;
  currency : string;
  source : string }.

Definition formatQuote (state : Instrument) : Quote :=
  let last := close_price state in
  let change := toFixed4 (last - open_price state) in
  let changePct :=
    if Qnonzero (open_price state)
    then toFixed4 ((change / open_price state) * 100)
    else 0%Q in
  mkQuote (symbol state) last (open_price state) (high_price state)
          (low_price state) (volume state) change changePct (ts state)
          "USD" "simulator".

(** ** Market clock (lines 90-100)

    [tz t] is what [getTimezoneOffset()] answers on a [Date] whose time value
    is [t]: the minutes by which UTC is ahead of the host's local time at
    that instant.  [getHours()] and [getMinutes()] read the host's local
    time. *)

Definition getTime_local (tz : Z -> Z) (t : Z) : Z := t - tz t * 60000.
Definition getHours (tz : Z -> Z) (t : Z) : Z :=
  (getTime_local tz t / 3600000) mod 24.
Definition getMinutes (tz : Z -> Z) (t : Z) : Z :=
  (getTime_local tz t / 60000) mod 60.

(** The time value of the [Date] that [nowInIST] returns when [new Date()]
    has time value [now]. *)
Definition nowInIST_at (tz : Z -> Z) (now : Z) : Z :=
  let utcMillis := now + tz now * 60000 in
  utcMillis + IST_OFFSET_MINUTES * 60000.

Definition isMarketOpenIST_at (tz : Z -> Z) (now : Z) : bool :=
  let ist := nowInIST_at tz now in
  let minutes := getHours tz ist * 60 + getMinutes tz ist in
  (10 * 60 <=? minutes) && (minutes <? 19 * 60).

Definition nowInIST (tz : Z -> Z) : M Z :=
  now <- Date_now ;;
  ret (nowInIST_at tz now).

Definition isMarketOpenIST (tz : Z -> Z) : M bool :=
  ist <- nowInIST tz ;;
  let minutes := getHours tz ist * 60 + getMinutes tz ist in
  ret ((10 * 60 <=? minutes) && (minutes <? 19 * 60)).

(** ** Values that arrive as an event argument *)

#[warnings="-register-all"]
Inductive JsValue : Type :=
| JsUndefined                       (* no argument was sent *)
| JsNull
| JsBool (b : bool)
| JsNumber (n : Z)                  (* an integral number *)
| JsString (s : string)
| JsArray (elems : list string)     (* the event's contract: strings *)
| JsObject (props : list (string * JsValue)).

(** [!v] is [negb (truthy v)]. *)
Definition truthy (v : JsValue) : bool :=
  match v with
  | JsUndefined | JsNull => false
  | JsBool b => b
  | JsNumber n => negb (n =? 0)
  | JsString s => negb (String.eqb s "")
  | JsArray _ | JsObject _ => true
  end.

Fixpoint own_prop (props : list (string * JsValue)) (k : string)
  : option JsValue :=
  match props with
  | [] => None
  | (k', v) :: rest => if String.eqb k' k then Some v else own_prop rest k
  end.

(** [v.length === 0], for a [v] that is neither undefined nor null. *)
Definition length_is_zero (v : JsValue) : bool :=
  match v with
  | JsString s => (String.length s =? 0)%nat
  | JsArray l => (List.length l =? 0)%nat
  | JsObject props =>
      match own_prop props "length" with
      | Some (JsNumber 0) => true
      | _ => false
      end
  | _ => false
  end.

Definition Array_isArray (v : JsValue) : bool :=
  match v with JsArray _ => true | _ => false end.

(** ** Sets of symbols *)

Definition set_has (s : list string) (x : string) : bool :=
  existsb (String.eqb x) s.
Definition set_add (s : list string) (x : string) : list string :=
  if set_has s x then s else s ++ [x].
Definition set_delete (s : list string) (x : string) : list string :=
  filter (fun y => negb (String.eqb x y)) s.

(** ** Reading [instruments[sym]] through the prototype chain

    [instruments] is created by [{}], so a key that is not an own property
    is looked up on [Object.prototype]. *)

Definition Object_prototype_keys : list string :=
  [ "constructor"; "__defineGetter__"; "__defineSetter__"; "hasOwnProperty";
    "__lookupGetter__"; "__lookupSetter__"; "isPrototypeOf";
    "propertyIsEnumerable"; "toString"; "valueOf"; "__proto__";
    "toLocaleString" ]%string.

Inductive PropRead : Type :=
| POwn (state : Instrument)
| PInherited            (* a member of Object.prototype: truthy *)
| PUndefined.

Definition read_instruments (store : Store) (sym : string) : PropRead :=
  match own store sym with
  | Some st => POwn st
  | None => if set_has Object_prototype_keys sym then PInherited
            else PUndefined
  end.

Definition read_truthy (p : PropRead) : bool :=
  match p with PUndefined => false | _ => true end.

(** ** Connections (lines 153-188) *)

(** In a snapshot, [None] is [formatQuote] applied to an inherited member:
    every field it copies is [undefined]. *)
Inductive Msg : Type :=
| Info (text : string)
| Snapshot (quotes : list (option Quote))
| Update (q : Quote)
| Pong (t : Z).

(** [outbox]: what was emitted on the socket, oldest first, each message with
    the clock value at which it was emitted. *)
Record Socket := mkSocket {
  sid : nat;
  meta : Meta;
  outbox : list (Z * Msg) }.

Definition emit_at (now : Z) (sock : Socket) (m : Msg) : Socket :=
  mkSocket (sid sock) (meta sock) (outbox sock ++ [(now, m)]).

Definition set_subs (sock : Socket) (s : list string) : Socket :=
  mkSocket (sid sock)
           (mkMeta s (lastWindowStart (meta sock)) (sentInWindow (meta sock)))
           (outbox sock).

(** What a handler leaves behind: it returns, or it throws with the socket
    as mutated so far. *)
Inductive Completion : Type :=
| Returned (sock : Socket)
| Thrown (err : string) (sock : Socket).

Definition on_connection (id : nat) : M Socket :=
  now <- Date_now ;;
  ret (emit_at now (mkSocket id (mkMeta [] now 0) [])
         (Info "Connected! Subscribe with socket.emit('subscribe', ['AAPL','TSLA'])")).

Fixpoint snapshot_of (store : Store) (syms : list string)
  : option (list (option Quote)) :=
  match syms with
  | [] => Some []
  | sym :: rest =>
      match read_instruments store sym with
      | PUndefined => None   (* formatQuote(undefined) throws *)
      | p =>
          match snapshot_of store rest with
          | None => None
          | Some qs =>
              Some (match p with POwn st => Some (formatQuote st)
                               | _ => None end :: qs)
          end
      end
  end.

Definition on_subscribe (store : Store) (now : Z) (symbols : JsValue)
    (sock : Socket) : Completion :=
  let cleared := set_subs sock [] in
  if negb (truthy symbols) || length_is_zero symbols then
    let sock1 := set_subs cleared (fold_left set_add (Object_keys store) []) in
    match snapshot_of store (subs (meta sock1)) with
    | Some snapshot => Returned (emit_at now sock1 (Snapshot snapshot))
    | None => Thrown "TypeError" sock1
    end
  else
    match symbols with
    | JsArray elems =>
        let kept :=
          filter (fun sym => read_truthy (read_instruments store sym)) elems in
        let sock1 := set_subs cleared (fold_left set_add kept []) in
        match snapshot_of store (subs (meta sock1)) with
        | Some snapshot => Returned (emit_at now sock1 (Snapshot snapshot))
        | None => Thrown "TypeError" sock1
        end
    | _ => Thrown "TypeError: symbols.filter is not a function" cleared
    end.

Definition on_unsubscribe (now : Z) (symbols : JsValue) (sock : Socket)
  : Completion :=
  if negb (truthy symbols) || negb (Array_isArray symbols) then Returned sock
  else
    match symbols with
    | JsArray elems =>
        let sock1 :=
          set_subs sock (fold_left set_delete elems (subs (meta sock))) in
        Returned (emit_at now sock1
                    (Info ("Unsubscribed from: " ++ String.concat ", " elems)))
    | _ => Returned sock
    end.

Definition on_ping (sock : Socket) : M Socket :=
  now <- Date_now ;;
  ret (emit_at now sock (Pong now)).

(** ** Simulation loop (lines 193-220) *)

Record World := mkWorld {
  instruments : Store;
  sockets : list Socket;     (* io.sockets.sockets, in insertion order *)
  due : Z;                   (* when the pending timer may fire *)
  next_id : nat }.

(** [updateSymbols] may hold [undefined] (here [None]): that is what
    [symbols[i]] is for an index past the end. *)
Definition opt_eqb (a b : option string) : bool :=
  match a, b with
  | Some x, Some y => String.eqb x y
  | None, None => true
  | _, _ => false
  end.

Definition oset_add (s : list (option string)) (x : option string)
  : list (option string) :=
  if existsb (opt_eqb x) s then s else s ++ [x].

(** Lines 204-207: one [Math.random()] per turn of the loop. *)
Fixpoint select_loop (rs : list Rand01) (symbols : list string) (count : Z)
    (updateSymbols : list (option string))
  : option (list (option string) * list Rand01) :=
  if Z.of_nat (List.length updateSymbols) <? count then
    match rs with
    | [] => None
    | r :: rs' =>
        let i := Qfloor (rv r * inject_Z (Z.of_nat (List.length symbols))) in
        let sym := nth_error symbols (Z.to_nat i) in
        select_loop rs' symbols count (oset_add updateSymbols sym)
    end
  else Some (updateSymbols, rs).

Definition select (symbols : list string) (count : Z)
  : M (list (option string)) :=
  fun e => match select_loop (rnd e) symbols count [] with
           | None => Starved
           | Some (chosen, rs) => Ret chosen (mkEnv rs (lags e) (clock e))
           end.

(** Line 209.  The chosen keys come from [Object.keys(instruments)], so each
    read is an own property; [simulateTick(undefined)] throws, and a run that
    reads an inherited member is cut off. *)
Fixpoint simulate_all (chosen : list (option string)) (store : Store)
  : M (Store * list Instrument) :=
  match chosen with
  | [] => ret (store, [])
  | None :: _ => throw "TypeError"
  | Some sym :: rest =>
      match read_instruments store sym with
      | POwn st =>
          u <- simulateTick st ;;
          '(store', us) <- simulate_all rest (store_set store sym u) ;;
          ret (store', u :: us)
      | PInherited => fun _ => Starved
      | PUndefined => throw "TypeError"
      end
  end.

Definition peek_clock : M Z := fun e => Ret (clock e) e.

(** Lines 211-215, the body of the [forEach] callback. *)
Definition deliver (updates : list Instrument) (sock : Socket) : M Socket :=
  '(ok, meta') <- allowSendRate (meta sock) ;;
  let sock' := mkSocket (sid sock) meta' (outbox sock) in
  if negb ok then ret sock'
  else
    let relevant := filter (fun u => set_has (subs meta') (symbol u)) updates in
    now <- peek_clock ;;
    ret (fold_left (fun s u => emit_at now s (Update (formatQuote u)))
                   relevant sock').

Fixpoint forEach (f : Socket -> M Socket) (socks : list Socket)
  : M (list Socket) :=
  match socks with
  | [] => ret []
  | s :: rest =>
      s' <- f s ;;
      rest' <- forEach f rest ;;
      ret (s' :: rest')
  end.

(** [setTimeout(tick, ms)].  Node counts the delay of a timer from the time
    that the event loop noted when it entered the current turn, [loop_now],
    which is not after the time of the call: the timer may fire once [ms]
    have passed since [loop_now]. *)
Definition setTimeout (loop_now ms : Z) : M Z := ret (loop_now + ms).

Definition tick (tz : Z -> Z) (w : World) : M World :=
  loop_now <- peek_clock ;;
  open <- isMarketOpenIST tz ;;
  if negb open then
    d <- setTimeout loop_now 30000 ;;
    ret (mkWorld (instruments w) (sockets w) d (next_id w))
  else
    let symbols := Object_keys (instruments w) in
    r <- Math_random ;;
    let count := 3 + Qfloor (rv r * 4) in
    updateSymbols <- select symbols count ;;
    '(store', updates) <- simulate_all updateSymbols (instruments w) ;;
    socks' <- forEach (deliver updates) (sockets w) ;;
    d <- setTimeout loop_now BROADCAST_INTERVAL_MS ;;
    ret (mkWorld store' socks' d (next_id w)).

(** ** The event loop

    What the process reacts to: a connection, a message from a connected
    client, a disconnect, or the pending timer. *)

Inductive Event : Type :=
| EConnect
| ESubscribe (id : nat) (symbols : JsValue)
| EUnsubscribe (id : nat) (symbols : JsValue)
| EPing (id : nat)
| EDisconnect (id : nat)
| ETimer.

Definition complete (c : Completion) : M Socket :=
  match c with
  | Returned sock => ret sock
  | Thrown err _ => throw err
  end.

(** Run the handler of the socket [id]; an event for a socket that is gone
    reaches no handler. *)
Fixpoint dispatch (id : nat) (h : Socket -> M Socket) (socks : list Socket)
  : M (list Socket) :=
  match socks with
  | [] => ret []
  | s :: rest =>
      if (sid s =? id)%nat then s' <- h s ;; ret (s' :: rest)
      else rest' <- dispatch id h rest ;; ret (s :: rest')
  end.

(** Nothing happens until [t] when [t] is still ahead. *)
Definition wait_until (t : Z) : M unit :=
  fun e => Ret tt (mkEnv (rnd e) (lags e) (Z.max (clock e) t)).

Definition step (tz : Z -> Z) (ev : Event) (w : World) : M World :=
  match ev with
  | EConnect =>
      s <- on_connection (next_id w) ;;
      ret (mkWorld (instruments w) (sockets w ++ [s]) (due w) (S (next_id w)))
  | ESubscribe id symbols =>
      now <- peek_clock ;;
      socks <- dispatch id
                 (fun s => complete (on_subscribe (instruments w) now symbols s))
                 (sockets w) ;;
      ret (mkWorld (instruments w) socks (due w) (next_id w))
  | EUnsubscribe id symbols =>
      now <- peek_clock ;;
      socks <- dispatch id (fun s => complete (on_unsubscribe now symbols s))
                 (sockets w) ;;
      ret (mkWorld (instruments w) socks (due w) (next_id w))
  | EPing id =>
      socks <- dispatch id on_ping (sockets w) ;;
      ret (mkWorld (instruments w) socks (due w) (next_id w))
  | EDisconnect id =>
      ret (mkWorld (instruments w)
             (filter (fun s => negb (sid s =? id)%nat) (sockets w))
             (due w) (next_id w))
  | ETimer =>                      (* the turn of the pending timer *)
      _ <- wait_until (due w) ;;
      tick tz w
  end.

Fixpoint run (tz : Z -> Z) (evs : list Event) (w : World) : M World :=
  match evs with
  | [] => ret w
  | ev :: rest => w' <- step tz ev w ;; run tz rest w'
  end.

(** Lines 223-226: the server starts with the seeded store, no connection,
    and the first [tick()] called at once. *)
Definition boot (todayDate : string) : M World :=
  now <- Date_now ;;
  d <- peek_clock ;;
  ret (mkWorld (init_instruments todayDate now) [] d 0).

(** ** The health endpoint (lines 126-148)

    A request is its method and its URL, which may be missing.  The handler
    answers with the health report, answers "not found", or leaves the
    request to Socket.IO without answering.  [uptime] is what
    [process.uptime()] reads. *)

Record Request := mkRequest {
  req_method : string;
  req_url : option string }.

Inductive Response : Type :=
| Health (uptime_seconds : Q) (timestamp : Z)   (* 200, status "ok" *)
| NotFound                                      (* 404 *)
| Unanswered.                                   (* left to Socket.IO *)

(** [s.split("?")[0]]: what comes before the first question mark. *)
Fixpoint before_query (s : string) : string :=
  match s with
  | EmptyString => EmptyString
  | String c rest =>
      if Ascii.eqb c "?"%char then EmptyString else String c (before_query rest)
  end.

(** [(req.url || "/").split("?")[0]]: a missing or empty URL counts as "/". *)
Definition request_path (url : option string) : string :=
  before_query
    match url with
    | None => "/"
    | Some u => if String.eqb u "" then "/" else u
    end.

Definition healthPaths : list string :=
  [ "/"; "/health"; "/healthz"; "/cron-ping"; "/alive" ]%string.

Definition httpHandler (uptime : Q) (req : Request) : M Response :=
  let path := request_path (req_url req) in
  if String.eqb (req_method req) "GET" && set_has healthPaths path then
    now <- Date_now ;;
    ret (Health uptime now)
  else if String.prefix "/socket.io" path then ret Unanswered
  else ret NotFound.

(** * What the statements speak about *)

(** ** The store and its ticks *)

(** The price invariant of one instrument. *)
Definition ohlc_ok (st : Instrument) : Prop :=
  (low_price st <= close_price st)%Q /\ (close_price st <= high_price st)%Q /\
  (low_price st <= open_price st)%Q /\ (open_price st <= high_price st)%Q.

(** [P] holds of every stored instrument. *)
Definition store_all (P : Instrument -> Prop) (store : Store) : Prop :=
  Forall (fun kv => P (snd kv)) store.

Definition store_ok (store : Store) : Prop := store_all ohlc_ok store.

(** [P] survives [simulateTick]. *)
Definition tick_stable (P : Instrument -> Prop) : Prop :=
  forall pct r now st, P st -> P (simulateTick_at pct r now st).



(** The universe of symbols is the key list of the seed table, and every
    stored object carries its own key. *)
Definition universe : list string := map fst BASE_OHLC.

Definition store_wf (store : Store) : Prop :=
  Object_keys store = universe /\
  Forall (fun kv => symbol (snd kv) = fst kv) store.

(** [u] is what one [simulateTick] made, between the clock values [lo] and
    [hi], of the object stored under its symbol, and is what [store'] holds
    there. *)
Definition mutated_by (store store' : Store) (lo hi : Z) (u : Instrument)
  : Prop :=
  exists st r1 r2 now,
    own store (symbol u) = Some st /\
    u = simulateTick_at ((rv r1 * 2 - 1) * 0.004)%Q r2 now st /\
    lo <= now <= hi /\
    own store' (symbol u) = Some u.



(** A key of [symbols], as a member of [updateSymbols]. *)
Definition key_of (symbols : list string) (o : option string) : Prop :=
  exists sym, o = Some sym /\ In sym symbols.



(** ** Runs *)

(** The worlds the server can be in: booted, then any events. *)
Definition reachable_from (e0 : Env) (tz : Z -> Z) (w : World) (e : Env)
  : Prop :=
  exists todayDate w0 e1 evs,
    boot todayDate e0 = Ret w0 e1 /\ run tz evs w0 e1 = Ret w e.

Definition reachable (tz : Z -> Z) (w : World) (e : Env) : Prop :=
  exists e0, reachable_from e0 tz w e.

Definition run_from_boot (tz : Z -> Z) (todayDate : string)
    (evs : list Event) : M World :=
  w0 <- boot todayDate ;; run tz evs w0.


(** ** Logs *)


Definition is_update (m : Z * Msg) : bool :=
  match snd m with Update _ => true | _ => false end.


(** How many [update] messages a log holds with a time in [lo, hi]. *)
Definition updates_between (lo hi : Z) (log : list (Z * Msg)) : nat :=
  List.length
    (filter (fun m => is_update m && (lo <=? fst m) && (fst m <=? hi)) log).

(** The emission times of the [update] messages of a log. *)
Definition upd_times (log : list (Z * Msg)) : list Z :=
  map fst (filter is_update log).

Definition count_in (lo hi : Z) (ts : list Z) : nat :=
  List.length (filter (fun t => (lo <=? t) && (t <=? hi)) ts).

(** ** Quotes *)



(** ** Delivery *)

(** What the [forEach] callback emits on a socket whose admission check
    reads the clock at [now]: nothing when the check denies, else one
    [update] per instrument of the batch whose symbol is subscribed. *)
Definition delivery (now : Z) (updates : list Instrument) (m : Meta)
  : list (Z * Msg) :=
  if fst (allowSendRate_at now m) then
    map (fun u => (now, Update (formatQuote u)))
        (filter (fun u => set_has (subs m) (symbol u)) updates)
  else [].

(** One run of the callback took [s] to [s'], its clock read within
    [lo, hi]. *)
Definition delivered (updates : list Instrument) (lo hi : Z)
    (s s' : Socket) : Prop :=
  exists now,
    lo <= now <= hi /\ sid s' = sid s /\
    meta s' = snd (allowSendRate_at now (meta s)) /\
    outbox s' = outbox s ++ delivery now updates (meta s).

(** An open cycle (lines 201-217) from [w], [e] to [w'], [e'], in a turn of
    the event loop entered at [loop_now], that drew [r] for the count and
    mutated the batch [updates]. *)
Definition open_cycle (w : World) (loop_now : Z) (e : Env) (w' : World)
    (e' : Env) (r : Rand01) (updates : list Instrument) : Prop :=
  exists chosen e1 e2 e3,
    Math_random e = Ret r e1 /\
    select (Object_keys (instruments w)) (3 + Qfloor (rv r * 4)) e1
      = Ret chosen e2 /\
    simulate_all chosen (instruments w) e2 = Ret (instruments w', updates) e3 /\
    forEach (deliver updates) (sockets w) e3 = Ret (sockets w') e' /\
    due w' = loop_now + BROADCAST_INTERVAL_MS /\
    next_id w' = next_id w.


(** ** The rate state *)

(** The window that an admission check at [now] finds in force: the old one,
    or a fresh one when the old one has no start or is over. *)
Definition window_reset (now : Z) (m : Meta) : bool :=
  (lastWindowStart m =? 0) || (1000 <? now - lastWindowStart m).

Definition window_start (now : Z) (m : Meta) : Z :=
  if window_reset now m then now else lastWindowStart m.

Definition window_count (now : Z) (m : Meta) : Z :=
  if window_reset now m then 0 else sentInWindow m.

(** Successive admission checks on one connection, at the given times. *)
Fixpoint checks (times : list Z) (m : Meta) : list bool * Meta :=
  match times with
  | [] => ([], m)
  | t :: rest =>
      let (ok, m1) := allowSendRate_at t m in
      let (oks, m2) := checks rest m1 in
      (ok :: oks, m2)
  end.

(** What the event loop keeps true of a rate state while the pending timer
    is due at [D] and the clock reads [now]: the window did not start in the
    future and has admitted at most three checks; when it has admitted two
    it started a period before [D], when three, two periods before [D]. *)
Definition window_fresh (D now : Z) (m : Meta) : Prop :=
  lastWindowStart m <= now /\
  (sentInWindow m = 0 \/ sentInWindow m = 1 \/
   (sentInWindow m = 2 /\ lastWindowStart m + BROADCAST_INTERVAL_MS <= D) \/
   (sentInWindow m = 3 /\ lastWindowStart m + 2 * BROADCAST_INTERVAL_MS <= D)).

Definition world_fresh (w : World) (e : Env) : Prop :=
  Forall (fun s => window_fresh (due w) (clock e) (meta s)) (sockets w).

(** The clock and every window start are after the epoch. *)
Definition starts_positive (w : World) (e : Env) : Prop :=
  0 < clock e /\ Forall (fun s => 0 < lastWindowStart (meta s)) (sockets w).

(** ** The pace of the updates *)

(** What the event loop keeps true of the times [ts] at which a socket was
    sent its [update]s, while the pending timer is due at [D] and the clock
    reads [now]: none lies in the future; at most 6 lie less than one
    broadcast period before [D] and at most 12 less than two periods; any
    stretch shorter than a period holds at most 12 of them, and any stretch
    of one second at most 18. *)
Definition paced (D now : Z) (ts : list Z) : Prop :=
  Forall (fun t => t <= now) ts /\
  (forall u hi, D - BROADCAST_INTERVAL_MS < u ->
                (count_in u hi ts <= 6)%nat) /\
  (forall u hi, D - 2 * BROADCAST_INTERVAL_MS < u ->
                (count_in u hi ts <= 12)%nat) /\
  (forall u, (count_in u (u + 799) ts <= 12)%nat) /\
  (forall u, (count_in u (u + 1000) ts <= 18)%nat).

Definition world_paced (w : World) (e : Env) : Prop :=
  Forall (fun s => paced (due w) (clock e) (upd_times (outbox s))) (sockets w).

(** A handler that leaves the rate state and the sent [update]s alone. *)
Definition quiet (s s' : Socket) : Prop :=
  sid s' = sid s /\
  lastWindowStart (meta s') = lastWindowStart (meta s) /\
  sentInWindow (meta s') = sentInWindow (meta s) /\
  upd_times (outbox s') = upd_times (outbox s).

(** A socket as [on_connection] makes it at [now]. *)
Definition joined (now : Z) (s : Socket) : Prop :=
  meta s = mkMeta [] now 0 /\ upd_times (outbox s) = [].

(** Where a socket of the world after a client event comes from. *)
Definition client_step (w : World) (e' : Env) (s' : Socket) : Prop :=
  (exists s, In s (sockets w) /\ quiet s s') \/ joined (clock e') s'.

(** ** The market gate of the specification *)

(** The market gate in the words of the specification: the minutes since
    midnight of the current time at the fixed offset UTC+5:30 lie in
    [600, 1140). *)
Definition ist_minutes (now : Z) : Z :=
  ((now + IST_OFFSET_MINUTES * 60000) / 60000) mod 1440.

Definition spec_market_open (now : Z) : bool :=
  (600 <=? ist_minutes now) && (ist_minutes now <? 1140).

(** ** Sample data *)

(** The seeded AAPL instrument (line 22). *)
Definition seed_AAPL : Instrument :=
  mkInstrument "AAPL" "2026-01-02" 228.5 232.4 227.9 231.85 58200000 0.

(** A host that keeps UTC. *)
Definition utc_host : Z -> Z := fun _ => 0.

(** A host in the zone America/New_York during 2026: UTC-5, and UTC-4
    from 2026-03-08T07:00:00Z until 2026-11-01T06:00:00Z. *)
Definition new_york_2026 (t : Z) : Z :=
  if (1772953200000 <=? t) && (t <? 1793512800000) then 240 else 300.

(** 2026-03-08T03:30:00Z, which is 09:00 in IST. *)
Definition t_0900_IST : Z := 1772940600000.

(** A fresh socket and the seeded store, for the handler examples. *)
Definition fresh_socket : Socket := mkSocket 0 (mkMeta [] 1767335400000 0) [].
Definition seeded : Store := init_instruments "2026-01-02" 1767335400000.

Definition demo_rnd : list Rand01 :=
  [ mkRand 0 eq_refl;                                   (* count = 3 *)
    mkRand 0 eq_refl; mkRand (1 # 20) eq_refl; mkRand (1 # 10) eq_refl;
    mkRand (3 # 4) eq_refl; mkRand (1 # 2) eq_refl;     (* AAPL *)
    mkRand (1 # 4) eq_refl; mkRand (1 # 3) eq_refl;     (* TSLA *)
    mkRand (99 # 100) eq_refl; mkRand (1 # 7) eq_refl ] (* MSFT *).

(** The clock starts at 2026-01-02T06:30:00Z, which is 12:00 in IST. *)
Definition demo_env : Env :=
  mkEnv demo_rnd [0; 5; 0; 1; 0; 0; 2; 1; 3]%N 1767335400000.

Definition world_of (r : result World) : World :=
  match r with
  | Ret w _ => w
  | _ => mkWorld [] [] 0 0
  end.

Definition env_of (r : result World) : Env :=
  match r with
  | Ret _ e => e
  | _ => mkEnv [] [] 0
  end.

(** Two clients connect; the first subscribes to TSLA and an unknown
    symbol, the second to a symbol that the coming batch does not hold. *)
Definition demo_events : list Event :=
  [ EConnect; ESubscribe 0 (JsArray ["TSLA"; "UNKNOWN"]%string);
    EConnect; ESubscribe 1 (JsArray ["IBM"]%string) ].

Definition demo_before : result World :=
  run_from_boot utc_host "2026-01-02" demo_events demo_env.

Definition demo_after : result World :=
  tick utc_host (world_of demo_before) (env_of demo_before).

(** The same run with the timer firing at its end. *)
Definition demo_full : result World :=
  run_from_boot utc_host "2026-01-02" (demo_events ++ [ETimer]) demo_env.

(** The environment of the sample run once the gate has read the clock. *)
Definition demo_gate_env : Env :=
  match isMarketOpenIST utc_host (env_of demo_before) with
  | Ret _ e => e
  | _ => mkEnv [] [] 0
  end.

Definition demo_socket (i : nat) (r : result World) : Socket :=
  nth i (sockets (world_of r)) fresh_socket.

(** A burst of checks: one that resets the window, then sixty more within
    the next half second. *)
Definition burst_meta : Meta := mkMeta ["TSLA"%string] 1767335400000 7.
Definition burst_start : Z := 1767335402000.
Definition burst_later : list Z :=
  map (fun i => burst_start + Z.of_nat i * 8) (seq 1 60).

(** ** Further notions *)

(** A URL path without a question mark. *)
Definition plain_path (p : string) : Prop := before_query p = p.

(** What [instruments[sym]] is truthy for: an own key, or the name of a
    member of [Object.prototype]. *)
Definition known (store : Store) (sym : string) : Prop :=
  In sym (Object_keys store) \/ In sym Object_prototype_keys.

(** The entry of a snapshot for [sym]. *)
Definition snapshot_entry (store : Store) (sym : string) : option Quote :=
  option_map formatQuote (own store sym).



(** Prices in order and not below one ten-thousandth. *)
Definition priced (st : Instrument) : Prop :=
  ohlc_ok st /\ (1 # 10000 <= low_price st)%Q.

(** [P] survives a tick whose price move is drawn as [randPct(0.004)]
    draws it. *)
Definition draw_stable (P : Instrument -> Prop) : Prop :=
  forall r1 r2 now st,
    P st -> P (simulateTick_at ((rv r1 * 2 - 1) * 0.004)%Q r2 now st).


(** A stored instrument at the clock value [now]: a symbol of the universe,
    prices in order and positive, and a time stamp not in the future. *)
Definition settled (now : Z) (st : Instrument) : Prop :=
  In (symbol st) universe /\ priced st /\ ts st <= now.



(** A message that a client handler emits at [now] over [store]: never an
    [update], and a snapshot only of stored instruments. *)
Definition client_message (store : Store) (now : Z) (tm : Z * Msg) : Prop :=
  match snd tm with
  | Update _ => False
  | Snapshot quotes =>
      fst tm = now /\
      forall q, In (Some q) quotes ->
                exists sym st, own store sym = Some st /\ q = formatQuote st
  | _ => True
  end.

(** The socket [s'] of the world after a client event on [w] at [now] is a
    socket of [w] with the same id, or a new one with the next id, whose log
    was extended by messages of client handlers. *)
Definition client_log (w : World) (now : Z) (s' : Socket) : Prop :=
  exists old extra,
    ((old = [] /\ sid s' = next_id w) \/
     exists s, In s (sockets w) /\ sid s = sid s' /\ old = outbox s) /\
    outbox s' = old ++ extra /\
    Forall (client_message (instruments w) now) extra.





(** How many turns of the timer a list of events holds. *)
Definition timer_turns (evs : list Event) : Z :=
  Z.of_nat (List.length
              (filter (fun ev => match ev with ETimer => true | _ => false end)
                      evs)).

(** * Lemmas *)

(** ** The monad *)

Lemma bind_Ret {A B} (c : M A) (k : A -> M B) e b e' :
  bind c k e = Ret b e' ->
  exists a e1, c e = Ret a e1 /\ k a e1 = Ret b e'.
Proof.
  unfold bind. destruct (c e) as [a e1| |err]; try discriminate.
  intros H. exists a, e1. split; [reflexivity | exact H].
Qed.

Lemma ret_Ret {A} (a b : A) e e' : ret a e = Ret b e' -> a = b /\ e = e'.
Proof. unfold ret. intros H. inversion H. split; reflexivity. Qed.

Lemma Math_random_Ret e r e' :
  Math_random e = Ret r e' ->
  rnd e = r :: rnd e' /\ lags e' = lags e /\ clock e' = clock e.
Proof.
  unfold Math_random. destruct (rnd e) as [|r0 rs] eqn:E; [discriminate|].
  intros H. inversion H; subst. simpl. auto.
Qed.

Lemma Date_now_Ret e t e' :
  Date_now e = Ret t e' ->
  exists d, lags e = d :: lags e' /\ rnd e' = rnd e /\
            t = clock e + Z.of_N d /\ clock e' = t.
Proof.
  unfold Date_now. destruct (lags e) as [|d ds] eqn:E; [discriminate|].
  intros H. inversion H; subst. simpl. exists d. auto.
Qed.

Lemma peek_clock_Ret e t e' : peek_clock e = Ret t e' -> t = clock e /\ e' = e.
Proof. unfold peek_clock. intros H. inversion H. auto. Qed.

(** Peel the first bind of [H : (x <- c ;; k) e = Ret b e']: [Hc] is the run
    of [c], with result [a] and environment [e1]; [H] is left with [k]. *)
Tactic Notation "unbind" hyp(H) "as" ident(a) ident(e1) ident(Hc) :=
  apply bind_Ret in H; destruct H as (a & e1 & Hc & H).





(** ** Rationals, and floors of scaled random numbers *)

Lemma Qltb_lt (x y : Q) : Qltb x y = true <-> (x < y)%Q.
Proof.
  unfold Qltb. rewrite negb_true_iff. split; intros H.
  - apply Qnot_le_lt. intros Hle. apply Qle_bool_iff in Hle. congruence.
  - destruct (Qle_bool y x) eqn:E; [|reflexivity].
    apply Qle_bool_iff in E. exfalso. apply (Qlt_not_le _ _ H E).
Qed.

Lemma Qltb_ge (x y : Q) : Qltb x y = false <-> (y <= x)%Q.
Proof. unfold Qltb. rewrite negb_false_iff. apply Qle_bool_iff. Qed.


Lemma Qnonzero_true (x : Q) : Qnonzero x = true <-> ~ (x == 0)%Q.
Proof.
  unfold Qnonzero. rewrite negb_true_iff. split; intros H.
  - intros E. apply Qeq_bool_iff in E. congruence.
  - destruct (Qeq_bool x 0) eqn:E; [|reflexivity].
    apply Qeq_bool_iff in E. contradiction.
Qed.


Lemma rv_range (r : Rand01) : (0 <= rv r /\ rv r < 1)%Q.
Proof.
  destruct r as [q Hq]. simpl. unfold in_unit in Hq.
  apply andb_true_iff in Hq. destruct Hq as [H0 H1].
  split; [apply Qle_bool_iff, H0 | apply Qltb_lt, H1].
Qed.

Lemma Qfloor_bounds (x : Q) :
  (inject_Z (Qfloor x) <= x /\ x < inject_Z (Qfloor x) + 1)%Q.
Proof.
  split; [apply Qfloor_le|].
  pose proof (Qlt_floor x) as H. rewrite inject_Z_plus in H. exact H.
Qed.


Lemma Qfloor_range (x : Q) (a b : Z) :
  (inject_Z a <= x)%Q -> (x < inject_Z b)%Q -> a <= Qfloor x < b.
Proof.
  intros Ha Hb. destruct (Qfloor_bounds x) as [Hlo Hhi]. split.
  - assert (H : (inject_Z a < inject_Z (Qfloor x + 1))%Q).
    { rewrite inject_Z_plus. change (inject_Z 1) with 1%Q. lra. }
    rewrite <- Zlt_Qlt in H. lia.
  - rewrite Zlt_Qlt. lra.
Qed.


Lemma index_range (r : Rand01) (n : Z) :
  0 < n -> 0 <= Qfloor (rv r * inject_Z n) < n.
Proof.
  intros Hn. destruct (rv_range r) as [H0 H1].
  assert (Hq : (0 < inject_Z n)%Q).
  { change 0%Q with (inject_Z 0). rewrite <- Zlt_Qlt. exact Hn. }
  apply Qfloor_range.
  - change (inject_Z 0) with 0%Q. nra.
  - nra.
Qed.

Lemma count_range (r : Rand01) : 3 <= 3 + Qfloor (rv r * 4) <= 6.
Proof.
  pose proof (index_range r 4 eq_refl) as H.
  change (inject_Z 4) with 4%Q in H. lia.
Qed.


Lemma pct_range (r : Rand01) :
  (- (4 # 1000) <= (rv r * 2 - 1) * 0.004 /\
   (rv r * 2 - 1) * 0.004 < 4 # 1000)%Q.
Proof. destruct (rv_range r) as [H0 H1]. split; lra. Qed.

(** ** Sets and lists *)

Lemma set_has_In (l : list string) (x : string) : set_has l x = true <-> In x l.
Proof.
  unfold set_has. rewrite existsb_exists. split.
  - intros (y & Hy & E). apply String.eqb_eq in E. congruence.
  - intros H. exists x. split; [exact H | apply String.eqb_refl].
Qed.

Lemma set_has_false (l : list string) (x : string) :
  set_has l x = false <-> ~ In x l.
Proof.
  rewrite <- set_has_In. destruct (set_has l x); split; congruence.
Qed.

Lemma set_add_In l x y : In y (set_add l x) <-> In y l \/ y = x.
Proof.
  unfold set_add. destruct (set_has l x) eqn:E.
  - apply set_has_In in E. split; [auto | intros [H| ->]; auto].
  - rewrite in_app_iff. simpl. split; intros [H|H]; auto.
    + destruct H as [H|[]]; auto.
Qed.

Lemma set_add_NoDup l x : NoDup l -> NoDup (set_add l x).
Proof.
  intros H. unfold set_add. destruct (set_has l x) eqn:E; [exact H|].
  apply set_has_false in E. apply NoDup_app; [exact H | | ].
  - repeat constructor. intros [].
  - intros y Hy [<-|[]]. contradiction.
Qed.

Lemma add_all_spec elems :
  forall acc,
    NoDup acc ->
    NoDup (fold_left set_add elems acc) /\
    (forall y, In y (fold_left set_add elems acc) <-> In y acc \/ In y elems).
Proof.
  induction elems as [|x elems IH]; intros acc Hnd; simpl.
  - split; [exact Hnd | intros y; tauto].
  - destruct (IH (set_add acc x) (set_add_NoDup _ _ Hnd)) as [H1 H2].
    split; [exact H1|]. intros y. rewrite H2, set_add_In. split.
    + intros [[H|H]|H]; auto.
    + intros [H|[H|H]]; auto.
Qed.

Lemma add_all_NoDup elems :
  forall acc, NoDup (acc ++ elems) -> fold_left set_add elems acc = acc ++ elems.
Proof.
  induction elems as [|x elems IH]; intros acc H; simpl.
  - rewrite app_nil_r. reflexivity.
  - assert (Hx : set_has acc x = false).
    { apply set_has_false. intros Hin. apply NoDup_remove_2 in H.
      apply H. apply in_or_app. left. exact Hin. }
    unfold set_add at 2. rewrite Hx.
    rewrite IH; rewrite <- app_assoc; [reflexivity | exact H].
Qed.





Lemma opt_eqb_eq (a b : option string) : opt_eqb a b = true <-> a = b.
Proof.
  destruct a as [x|], b as [y|]; simpl; split; intros H;
    try discriminate; try reflexivity.
  - apply String.eqb_eq in H. congruence.
  - inversion H. apply String.eqb_refl.
Qed.

Lemma oset_has_In (s : list (option string)) (x : option string) :
  existsb (opt_eqb x) s = true <-> In x s.
Proof.
  rewrite existsb_exists. split.
  - intros (y & Hy & E). apply opt_eqb_eq in E. congruence.
  - intros H. exists x. split; [exact H | apply opt_eqb_eq; reflexivity].
Qed.

Lemma oset_add_NoDup s x : NoDup s -> NoDup (oset_add s x).
Proof.
  intros H. unfold oset_add. destruct (existsb (opt_eqb x) s) eqn:E.
  - exact H.
  - apply NoDup_app; [exact H | repeat constructor; intros [] | ].
    intros y Hy [<-|[]]. apply oset_has_In in Hy. congruence.
Qed.

Lemma oset_add_length s x :
  (List.length s <= List.length (oset_add s x) <= S (List.length s))%nat.
Proof.
  unfold oset_add. destruct (existsb (opt_eqb x) s).
  - lia.
  - rewrite length_app. simpl. lia.
Qed.

Lemma oset_add_In s x y : In y (oset_add s x) -> In y s \/ y = x.
Proof.
  unfold oset_add. destruct (existsb (opt_eqb x) s).
  - auto.
  - intros H. apply in_app_or in H as [H|[H|[]]]; auto.
Qed.

Lemma Forall2_transfer {A} (R : A -> A -> Prop) (P Q : A -> Prop) l l' :
  Forall2 R l l' -> (forall a b, R a b -> P a -> Q b) ->
  Forall P l -> Forall Q l'.
Proof.
  intros H HR. induction H as [|a b l l' Hab _ IH]; intros HP.
  - constructor.
  - apply Forall_cons_iff in HP as [Ha Hl]. constructor; eauto.
Qed.

Lemma Forall2_from {A} (R : A -> A -> Prop) l l' :
  Forall2 R l l' -> Forall (fun b => exists a, In a l /\ R a b) l'.
Proof.
  induction 1 as [|a b l l' Hab _ IH]; constructor.
  - exists a. split; [left; reflexivity | exact Hab].
  - eapply Forall_impl; [|exact IH]. cbv beta. intros b' (a' & Hin & Hr).
    exists a'. split; [right; exact Hin | exact Hr].
Qed.

Lemma Forall2_with_l {A B} (P : A -> Prop) (R : A -> B -> Prop) l l' :
  Forall P l -> Forall2 R l l' -> Forall2 (fun a b => P a /\ R a b) l l'.
Proof.
  intros HP H. induction H as [|a b l l' Hab _ IH]; [constructor|].
  apply Forall_cons_iff in HP as [Ha Hl]. constructor; auto.
Qed.

(** ** The instrument store *)

Lemma init_store_ok d now : store_ok (init_instruments d now).
Proof.
  unfold store_ok, store_all, init_instruments, BASE_OHLC. cbn [map].
  repeat (apply Forall_cons;
          [ unfold ohlc_ok; cbn; repeat split; unfold Qle; simpl; lia | ]).
  apply Forall_nil.
Qed.

Lemma init_store_wf d now : store_wf (init_instruments d now).
Proof.
  unfold store_wf, init_instruments, Object_keys, universe. split.
  - rewrite map_map. apply map_ext. intros [k b]. reflexivity.
  - apply Forall_map. apply Forall_forall. intros [k b] _. reflexivity.
Qed.

Lemma universe_nonempty : universe <> [].
Proof. discriminate. Qed.

Lemma universe_NoDup : NoDup universe.
Proof.
  unfold universe, BASE_OHLC. cbn [map fst].
  repeat (constructor; [simpl; intuition discriminate|]). constructor.
Qed.

Lemma own_In store sym st : own store sym = Some st -> In (sym, st) store.
Proof.
  induction store as [|[k v] rest IH]; simpl; [discriminate|].
  destruct (String.eqb_spec k sym) as [->|Hne].
  - intros H. inversion H. left. reflexivity.
  - intros H. right. apply IH, H.
Qed.

Lemma own_key store sym : In sym (Object_keys store) <-> exists st, own store sym = Some st.
Proof.
  unfold Object_keys. induction store as [|[k v] store IH]; simpl.
  - split; [intros [] | intros (st & H); discriminate].
  - destruct (String.eqb_spec k sym) as [->|Hne].
    + split; [intros _; eexists; reflexivity | auto].
    + rewrite <- IH. split; [intros [H|H]; [congruence | exact H] | auto].
Qed.

Lemma store_set_keys store sym v :
  Object_keys (store_set store sym v) = Object_keys store.
Proof.
  induction store as [|[k w] rest IH]; simpl; [reflexivity|].
  destruct (String.eqb k sym); simpl; [reflexivity | f_equal; exact IH].
Qed.

Lemma store_set_Forall (P : string * Instrument -> Prop) store sym v :
  Forall P store -> (forall k, P (k, v)) ->
  Forall P (store_set store sym v).
Proof.
  intros H Hv. induction H as [|[k w] rest Hk Hrest IH]; simpl.
  - constructor.
  - destruct (String.eqb k sym); constructor; auto.
Qed.

Lemma store_set_wf store sym st v :
  store_wf store -> own store sym = Some st -> symbol v = symbol st ->
  store_wf (store_set store sym v).
Proof.
  intros [Hk Hs] Hown Hv. split.
  - rewrite store_set_keys. exact Hk.
  - assert (Hst : symbol st = sym).
    { apply own_In in Hown. rewrite Forall_forall in Hs.
      apply (Hs _ Hown). }
    clear Hk. revert Hown. induction Hs as [|[k w] rest Hkw Hrest IH]; simpl.
    + constructor.
    + destruct (String.eqb_spec k sym) as [->|Hne]; intros Hown.
      * constructor; [simpl; congruence | exact Hrest].
      * constructor; [exact Hkw | apply IH, Hown].
Qed.

Lemma own_store_set_same store sym st v :
  own store sym = Some st -> own (store_set store sym v) sym = Some v.
Proof.
  induction store as [|[k w] rest IH]; simpl; [discriminate|].
  destruct (String.eqb k sym) eqn:E; simpl; rewrite E; auto.
Qed.

Lemma own_store_set_other store sym v k :
  k <> sym -> own (store_set store sym v) k = own store k.
Proof.
  intros Hne. induction store as [|[k' w] rest IH]; simpl; [reflexivity|].
  destruct (String.eqb_spec k' sym) as [->|Hk]; simpl.
  - destruct (String.eqb_spec sym k); [congruence | reflexivity].
  - destruct (String.eqb k' k); [reflexivity | exact IH].
Qed.

Lemma own_wf_symbol store sym st :
  store_wf store -> own store sym = Some st -> symbol st = sym.
Proof.
  intros [_ Hs] H. apply own_In in H. rewrite Forall_forall in Hs.
  apply (Hs _ H).
Qed.

Lemma read_instruments_own store sym st :
  read_instruments store sym = POwn st <-> own store sym = Some st.
Proof.
  unfold read_instruments. destruct (own store sym) as [st'|].
  - split; intros H; inversion H; reflexivity.
  - destruct (set_has Object_prototype_keys sym); split; discriminate.
Qed.

(** ** One simulated tick of an instrument *)

Lemma simulateTick_at_ok pct r now st :
  ohlc_ok st -> ohlc_ok (simulateTick_at pct r now st).
Proof.
  unfold ohlc_ok, simulateTick_at. cbn. intros (H1 & H2 & H3 & H4).
  set (p := toFixed4 (close_price st * (1 + pct))). clearbody p.
  destruct (Qltb (high_price st) p) eqn:Eh;
    destruct (Qltb p (low_price st)) eqn:El;
    try apply Qltb_lt in Eh; try apply Qltb_lt in El;
    try apply Qltb_ge in Eh; try apply Qltb_ge in El;
    repeat split; lra.
Qed.


Lemma simulateTick_Ret st e u e' :
  simulateTick st e = Ret u e' ->
  exists r1 r2 d,
    rnd e = r1 :: r2 :: rnd e' /\ lags e = d :: lags e' /\
    clock e' = clock e + Z.of_N d /\
    u = simulateTick_at ((rv r1 * 2 - 1) * 0.004)%Q r2 (clock e') st.
Proof.
  unfold simulateTick, randPct. intros H.
  unbind H as pct e1 H1. unbind H1 as r1 e0 H0. apply ret_Ret in H1 as [<- <-].
  unbind H as r2 e2 H2. unbind H as now e3 H3. apply ret_Ret in H as [<- <-].
  apply Math_random_Ret in H0 as (R1 & L1 & C1).
  apply Math_random_Ret in H2 as (R2 & L2 & C2).
  apply Date_now_Ret in H3 as (d & L3 & R3 & T3 & C3).
  exists r1, r2, d. rewrite R1, R2, R3.
  repeat split; congruence.
Qed.



(** ** The selection loop *)

Lemma select_loop_eq rs symbols count acc :
  select_loop rs symbols count acc =
  if Z.of_nat (List.length acc) <? count then
    match rs with
    | [] => None
    | r :: rs' =>
        select_loop rs' symbols count
          (oset_add acc
             (nth_error symbols
                (Z.to_nat (Qfloor (rv r * inject_Z (Z.of_nat (List.length symbols)))))))
    end
  else Some (acc, rs).
Proof. destruct rs; reflexivity. Qed.

Lemma drawn_key (symbols : list string) (r : Rand01) :
  symbols <> [] ->
  key_of symbols
    (nth_error symbols
       (Z.to_nat (Qfloor (rv r * inject_Z (Z.of_nat (List.length symbols)))))).
Proof.
  intros Hne.
  assert (Hn : 0 < Z.of_nat (List.length symbols)).
  { destruct symbols; [congruence | simpl; lia]. }
  pose proof (index_range r _ Hn) as Hi.
  set (i := Qfloor _) in *. clearbody i.
  destruct (nth_error symbols (Z.to_nat i)) as [sym|] eqn:E.
  - exists sym. split; [reflexivity | eapply nth_error_In, E].
  - apply nth_error_None in E. lia.
Qed.

Lemma select_loop_spec symbols count :
  symbols <> [] ->
  forall rs acc chosen rs',
    select_loop rs symbols count acc = Some (chosen, rs') ->
    NoDup acc -> Z.of_nat (List.length acc) <= count ->
    Forall (key_of symbols) acc ->
    NoDup chosen /\ Z.of_nat (List.length chosen) = count /\
    Forall (key_of symbols) chosen /\ exists used, rs = used ++ rs'.
Proof.
  intros Hne. induction rs as [|r rs IH]; intros acc chosen rs' H Hnd Hlen Hall;
    rewrite select_loop_eq in H;
    destruct (Z.ltb_spec (Z.of_nat (List.length acc)) count) as [Hlt|Hge];
    try discriminate.
  - inversion H; subst. repeat split; auto; try lia. exists []. reflexivity.
  - apply IH in H.
    + destruct H as (H1 & H2 & H3 & used & ->).
      repeat split; auto. exists (r :: used). reflexivity.
    + apply oset_add_NoDup, Hnd.
    + pose proof (oset_add_length acc
        (nth_error symbols
           (Z.to_nat (Qfloor (rv r * inject_Z (Z.of_nat (List.length symbols))))))).
      lia.
    + apply Forall_forall. intros y Hy. apply oset_add_In in Hy as [Hy| ->].
      * rewrite Forall_forall in Hall. apply Hall, Hy.
      * apply drawn_key, Hne.
  - inversion H; subst. repeat split; auto; try lia. exists []. reflexivity.
Qed.


Lemma select_Ret symbols count e chosen e' :
  select symbols count e = Ret chosen e' ->
  select_loop (rnd e) symbols count [] = Some (chosen, rnd e') /\
  lags e' = lags e /\ clock e' = clock e.
Proof.
  unfold select. destruct (select_loop (rnd e) symbols count []) as [[c rs]|];
    [|discriminate].
  intros H. inversion H; subst. simpl. auto.
Qed.

(** ** Mutating the chosen instruments *)

Lemma simulate_all_spec chosen :
  forall store e store' updates e',
    simulate_all chosen store e = Ret (store', updates) e' ->
    store_wf store -> NoDup chosen ->
    map (fun u => Some (symbol u)) updates = chosen /\
    store_wf store' /\
    (forall P, tick_stable P -> store_all P store -> store_all P store') /\
    clock e <= clock e' /\
    (forall sym, ~ In (Some sym) chosen -> own store' sym = own store sym) /\
    Forall (mutated_by store store' (clock e) (clock e')) updates.
Proof.
  induction chosen as [|[sym|] rest IH]; intros store e store' updates e' H Hwf Hnd.
  - apply ret_Ret in H as [H <-]. inversion H; subst.
    split; [reflexivity|]. split; [exact Hwf|]. split; [auto|].
    split; [lia|]. split; [reflexivity | constructor].
  - simpl in H. destruct (read_instruments store sym) as [st| |] eqn:Er;
      try discriminate.
    apply read_instruments_own in Er.
    unbind H as u e1 Hu. unbind H as p e2 Hrest. destruct p as [store2 us].
    apply ret_Ret in H as [H <-]. inversion H; subst store2 updates. clear H.
    apply simulateTick_Ret in Hu as (r1 & r2 & d & Hr & Hl & Hc & Hu).
    pose proof (own_wf_symbol _ _ _ Hwf Er) as Hsym.
    assert (Hus : symbol u = sym) by (rewrite Hu; exact Hsym).
    apply NoDup_cons_iff in Hnd as [Hnotin Hnd'].
    apply IH in Hrest; [| eapply store_set_wf; eauto; congruence | exact Hnd'].
    destruct Hrest as (Hmap & Hwf' & Hok & Hclk & Hsame & Hmut).
    assert (Hown' : own store' sym = Some u).
    { rewrite (Hsame sym Hnotin). eapply own_store_set_same, Er. }
    split; [|split; [|split; [|split; [|split]]]].
    + simpl. rewrite Hus, Hmap. reflexivity.
    + exact Hwf'.
    + intros P HP Hs. apply (Hok P HP). apply store_set_Forall; [exact Hs|].
      intros k. simpl. rewrite Hu. apply HP.
      apply own_In in Er. unfold store_all in Hs. rewrite Forall_forall in Hs.
      apply (Hs _ Er).
    + lia.
    + intros k Hk. rewrite Hsame by (intros Hin; apply Hk; right; exact Hin).
      apply own_store_set_other. intros ->. apply Hk. left. reflexivity.
    + constructor.
      * exists st, r1, r2, (clock e1). rewrite Hus.
        repeat split; auto; lia.
      * rewrite Forall_forall in Hmut. apply Forall_forall. intros u' Hu'.
        destruct (Hmut u' Hu') as (st' & q1 & q2 & now & Ho & Hd & Hn & Ho').
        assert (Hne : symbol u' <> sym).
        { intros E. apply Hnotin. rewrite <- Hmap, <- E.
          apply (in_map (fun u => Some (symbol u))), Hu'. }
        exists st', q1, q2, now. repeat split; auto; try lia.
        rewrite <- Ho. symmetry. apply own_store_set_other, Hne.
  - simpl in H. discriminate.
Qed.



(** ** The admission check *)

Lemma allowSendRate_at_subs now m : subs (snd (allowSendRate_at now m)) = subs m.
Proof.
  unfold allowSendRate_at.
  destruct ((lastWindowStart m =? 0) || (1000 <? now - lastWindowStart m));
    cbn [sentInWindow subs lastWindowStart];
    destruct (MAX_RATE_PER_SECOND <=? _); reflexivity.
Qed.

Lemma allowSendRate_at_spec now m :
  let (ok, m') := allowSendRate_at now m in
  ok = (window_count now m <? MAX_RATE_PER_SECOND) /\
  subs m' = subs m /\
  lastWindowStart m' = window_start now m /\
  sentInWindow m' = window_count now m + (if ok then 1 else 0).
Proof.
  unfold allowSendRate_at, window_count, window_start, window_reset.
  destruct ((lastWindowStart m =? 0) || (1000 <? now - lastWindowStart m));
    cbn [sentInWindow subs lastWindowStart].
  - rewrite Z.leb_antisym. cbn. auto.
  - rewrite Z.leb_antisym.
    destruct (sentInWindow m <? MAX_RATE_PER_SECOND); cbn; repeat split; lia.
Qed.

Lemma allowSendRate_at_reset now m :
  window_reset now m = true ->
  allowSendRate_at now m = (true, mkMeta (subs m) now 1).
Proof.
  unfold allowSendRate_at, window_reset. intros ->. reflexivity.
Qed.

Lemma allowSendRate_at_keep now m :
  window_reset now m = false ->
  allowSendRate_at now m =
  if sentInWindow m <? MAX_RATE_PER_SECOND
  then (true, mkMeta (subs m) (lastWindowStart m) (sentInWindow m + 1))
  else (false, m).
Proof.
  unfold allowSendRate_at, window_reset. intros ->.
  rewrite Z.leb_antisym. destruct (sentInWindow m <? MAX_RATE_PER_SECOND);
    reflexivity.
Qed.

(** An admitted check falls within the second that its window covers. *)
Lemma admitted_in_window now m :
  lastWindowStart m <= now -> fst (allowSendRate_at now m) = true ->
  lastWindowStart (snd (allowSendRate_at now m)) <= now
  <= lastWindowStart (snd (allowSendRate_at now m)) + 1000.
Proof.
  intros Hle _. pose proof (allowSendRate_at_spec now m) as Hspec.
  destruct (allowSendRate_at now m) as [ok m'].
  destruct Hspec as (_ & _ & Hstart & _). cbn [snd]. rewrite Hstart.
  unfold window_start, window_reset.
  destruct (lastWindowStart m =? 0); cbn [orb]; [lia|].
  destruct (Z.ltb_spec 1000 (now - lastWindowStart m)); lia.
Qed.

Lemma window_reset_false now m :
  lastWindowStart m <> 0 -> now - lastWindowStart m <= 1000 ->
  window_reset now m = false.
Proof. unfold window_reset. intros H1 H2. lia. Qed.

(** ** Logs *)

Lemma updates_between_times lo hi log :
  updates_between lo hi log = count_in lo hi (upd_times log).
Proof.
  unfold updates_between, count_in, upd_times.
  induction log as [|m log IH]; [reflexivity|].
  simpl. destruct (is_update m); simpl.
  - destruct ((lo <=? fst m) && (fst m <=? hi)); simpl; rewrite IH;
      reflexivity.
  - exact IH.
Qed.

Lemma count_in_app lo hi a b :
  count_in lo hi (a ++ b) = (count_in lo hi a + count_in lo hi b)%nat.
Proof. unfold count_in. rewrite filter_app, length_app. reflexivity. Qed.

Lemma count_in_repeat lo hi t k :
  count_in lo hi (repeat t k) = if (lo <=? t) && (t <=? hi) then k else 0%nat.
Proof.
  unfold count_in. induction k as [|k IH]; cbn [repeat filter].
  - destruct ((lo <=? t) && (t <=? hi)); reflexivity.
  - destruct ((lo <=? t) && (t <=? hi)); cbn [List.length]; rewrite IH;
      reflexivity.
Qed.

Lemma count_in_none lo hi ts :
  Forall (fun t => t < lo) ts -> count_in lo hi ts = 0%nat.
Proof.
  unfold count_in. induction 1 as [|t ts Ht _ IH]; [reflexivity|].
  cbn [filter]. destruct (Z.leb_spec lo t); [lia|]. exact IH.
Qed.

Lemma upd_times_app a b : upd_times (a ++ b) = upd_times a ++ upd_times b.
Proof. unfold upd_times. rewrite filter_app, map_app. reflexivity. Qed.

(** ** Delivery to one socket and to all *)

Lemma emit_all_outbox now (f : Instrument -> Msg) l s :
  let s' := fold_left (fun s u => emit_at now s (f u)) l s in
  sid s' = sid s /\ meta s' = meta s /\
  outbox s' = outbox s ++ map (fun u => (now, f u)) l.
Proof.
  revert s. induction l as [|u l IH]; intros s; simpl.
  - rewrite app_nil_r. auto.
  - destruct (IH (emit_at now s (f u))) as (H1 & H2 & H3).
    rewrite H1, H2, H3. simpl. rewrite <- app_assoc. auto.
Qed.

Lemma deliver_Ret updates s e s' e' :
  deliver updates s e = Ret s' e' ->
  rnd e' = rnd e /\ delivered updates (clock e') (clock e') s s' /\
  clock e <= clock e'.
Proof.
  unfold deliver, allowSendRate. intros H.
  unbind H as p e1 H1. unbind H1 as now e0 H0.
  apply ret_Ret in H1 as [<- <-].
  apply Date_now_Ret in H0 as (d & Hl & Hr & Ht & Hc).
  unfold delivered, delivery.
  destruct (allowSendRate_at now (meta s)) as [ok m'] eqn:Ea.
  assert (Hsubs : subs m' = subs (meta s)).
  { change m' with (snd (ok, m')). rewrite <- Ea. apply allowSendRate_at_subs. }
  cbn [fst snd negb] in *. destruct ok; cbn [negb] in H.
  - unbind H as t e2 H2. apply peek_clock_Ret in H2 as [-> ->].
    apply ret_Ret in H as [<- <-].
    destruct (emit_all_outbox (clock e0) (fun u => Update (formatQuote u))
                (filter (fun u => set_has (subs m') (symbol u)) updates)
                (mkSocket (sid s) m' (outbox s))) as (E1 & E2 & E3).
    split; [exact Hr|]. split; [|lia].
    exists (clock e0). rewrite E1, E2, E3. cbn [sid meta outbox].
    rewrite Hc, Ea, Hsubs. cbn [fst snd]. repeat split; lia.
  - apply ret_Ret in H as [<- <-]. split; [exact Hr|]. split; [|lia].
    exists (clock e0). cbn [sid meta outbox].
    rewrite Hc, Ea, app_nil_r. cbn [fst snd]. repeat split; lia.
Qed.

Lemma delivered_widen updates lo hi lo' hi' s s' :
  delivered updates lo hi s s' -> lo' <= lo -> hi <= hi' ->
  delivered updates lo' hi' s s'.
Proof.
  intros (now & Hn & H) Hlo Hhi. exists now. split; [lia | exact H].
Qed.

Lemma forEach_deliver updates socks :
  forall e socks' e',
    forEach (deliver updates) socks e = Ret socks' e' ->
    rnd e' = rnd e /\ clock e <= clock e' /\
    Forall2 (delivered updates (clock e) (clock e')) socks socks'.
Proof.
  induction socks as [|s rest IH]; intros e socks' e' H; simpl in H.
  - apply ret_Ret in H as [<- <-]. repeat split; [lia | constructor].
  - unbind H as s1 e1 H1. unbind H as rest1 e2 H2.
    apply ret_Ret in H as [<- <-].
    apply deliver_Ret in H1 as (R1 & D1 & C1).
    apply IH in H2 as (R2 & C2 & F2).
    split; [congruence|]. split; [lia|]. constructor.
    + eapply delivered_widen; [exact D1 | lia | lia].
    + eapply Forall2_impl; [|exact F2]. intros a b Hab.
      eapply delivered_widen; [exact Hab | lia | lia].
Qed.



Lemma delivery_length now updates m :
  (List.length (delivery now updates m) <= List.length updates)%nat.
Proof.
  unfold delivery. destruct (fst (allowSendRate_at now m)); [|simpl; lia].
  rewrite length_map. apply filter_length_le.
Qed.

Lemma upd_times_delivery now updates m :
  upd_times (delivery now updates m)
  = repeat now (List.length (delivery now updates m)).
Proof.
  unfold delivery. destruct (fst (allowSendRate_at now m)); [|reflexivity].
  induction (filter (fun u => set_has (subs m) (symbol u)) updates)
    as [|u l IH]; [reflexivity|].
  unfold upd_times in *. simpl. f_equal. exact IH.
Qed.

(** ** One tick *)

Lemma isMarketOpenIST_Ret tz e b e' :
  isMarketOpenIST tz e = Ret b e' ->
  b = isMarketOpenIST_at tz (clock e') /\ clock e <= clock e' /\
  rnd e' = rnd e.
Proof.
  unfold isMarketOpenIST, nowInIST. intros H. unbind H as ist e1 H1.
  unbind H1 as now e2 H2. apply ret_Ret in H1 as [<- <-].
  apply ret_Ret in H as [<- <-].
  apply Date_now_Ret in H2 as (d & Hl & Hr & Ht & Hc).
  rewrite Hc. repeat split; [lia | exact Hr].
Qed.

Lemma setTimeout_Ret loop_now ms e t e' :
  setTimeout loop_now ms e = Ret t e' -> t = loop_now + ms /\ e' = e.
Proof. unfold setTimeout. intros H. apply ret_Ret in H as [<- <-]. auto. Qed.

Lemma tick_cases tz w e w' e' :
  tick tz w e = Ret w' e' ->
  exists e1 open,
    isMarketOpenIST tz e = Ret open e1 /\
    if open then exists r updates, open_cycle w (clock e) e1 w' e' r updates
    else instruments w' = instruments w /\ sockets w' = sockets w /\
         due w' = clock e + 30000 /\ next_id w' = next_id w /\ e' = e1.
Proof.
  unfold tick. intros H. unbind H as loop_now e0 H0.
  apply peek_clock_Ret in H0 as [-> ->]. unbind H as open e1 H1.
  exists e1, open. split; [exact H1|].
  destruct open; cbn [negb] in H.
  - unbind H as r e2 H2. unbind H as chosen e3 H3.
    unbind H as p e4 H4. destruct p as [store' updates].
    unbind H as socks' e5 H5. unbind H as d e6 H6.
    apply setTimeout_Ret in H6 as [-> ->]. apply ret_Ret in H as [<- <-].
    exists r, updates, chosen, e2, e3, e4. cbn. auto 10.
  - unbind H as d e2 H2. apply setTimeout_Ret in H2 as [-> ->].
    apply ret_Ret in H as [<- <-]. cbn. auto 10.
Qed.

Lemma open_cycle_facts w loop_now e w' e' r updates :
  store_wf (instruments w) -> open_cycle w loop_now e w' e' r updates ->
  Z.of_nat (List.length updates) = 3 + Qfloor (rv r * 4) /\
  NoDup (map symbol updates) /\
  incl (map symbol updates) universe /\
  store_wf (instruments w') /\
  (forall P, tick_stable P -> store_all P (instruments w) ->
             store_all P (instruments w')) /\
  (forall sym, ~ In sym (map symbol updates) ->
               own (instruments w') sym = own (instruments w) sym) /\
  Forall (mutated_by (instruments w) (instruments w') (clock e) (clock e'))
         updates /\
  Forall2 (delivered updates (clock e) (clock e')) (sockets w) (sockets w') /\
  clock e <= clock e'.
Proof.
  intros Hwf (chosen & e1 & e2 & e3 & Hr & Hsel & Hsim & Hfor & Hdue & Hid).
  apply Math_random_Ret in Hr as (Hr1 & Hl1 & Hc1).
  apply select_Ret in Hsel as (Hsel & Hl2 & Hc2).
  destruct Hwf as [Hkeys Hsyms]. rewrite Hkeys in Hsel.
  apply (select_loop_spec _ _ universe_nonempty) in Hsel;
    [| apply NoDup_nil | pose proof (count_range r); cbn [List.length Z.of_nat]; lia
     | apply Forall_nil].
  destruct Hsel as (Hnd & Hlen & Hall & _).
  apply simulate_all_spec in Hsim; [| split; assumption | exact Hnd].
  destruct Hsim as (Hmap & Hwf' & Hok & Hclk & Hsame & Hmut).
  apply forEach_deliver in Hfor as (Hr3 & Hc3 & Hdel).
  assert (Hmap' : map Some (map symbol updates) = chosen).
  { rewrite map_map. exact Hmap. }
  split; [|split; [|split; [|split; [|split; [|split; [|split; [|split]]]]]]].
  - rewrite <- Hlen, <- Hmap, length_map. reflexivity.
  - rewrite <- Hmap' in Hnd. apply NoDup_map_inv in Hnd. exact Hnd.
  - intros sym Hin. rewrite Forall_forall in Hall.
    destruct (Hall (Some sym)) as (sym' & E & Hin').
    + rewrite <- Hmap'. apply in_map, Hin.
    + inversion E; subst. exact Hin'.
  - exact Hwf'.
  - exact Hok.
  - intros sym Hnot. apply Hsame. rewrite <- Hmap'. intros Hin.
    apply in_map_iff in Hin as (x & Ex & Hx). inversion Ex; subst.
    contradiction.
  - eapply Forall_impl; [|exact Hmut]. intros u (st & q1 & q2 & now & A & B & C & D).
    exists st, q1, q2, now. repeat split; auto; lia.
  - eapply Forall2_impl; [|exact Hdel]. intros a b Hab.
    eapply delivered_widen; [exact Hab | lia | lia].
  - lia.
Qed.

Lemma tick_open tz w e e1 w' e' :
  isMarketOpenIST tz e = Ret true e1 -> tick tz w e = Ret w' e' ->
  exists r updates,
    open_cycle w (clock e) e1 w' e' r updates /\ clock e <= clock e1.
Proof.
  intros Hopen H. apply tick_cases in H as (e2 & open & Hopen' & H).
  rewrite Hopen in Hopen'. inversion Hopen'; subst.
  destruct H as (r & updates & H). exists r, updates. split; [exact H|].
  apply isMarketOpenIST_Ret in Hopen. lia.
Qed.

(** What a tick does to the sockets: nothing when the gate is closed, one
    run of the [forEach] callback on each when it is open. *)
Lemma tick_effects tz w e w' e' :
  tick tz w e = Ret w' e' -> store_wf (instruments w) ->
  clock e <= clock e' /\
  ((sockets w' = sockets w /\ due w' = clock e + 30000) \/
   (due w' = clock e + BROADCAST_INTERVAL_MS /\
    exists updates,
      (List.length updates <= 6)%nat /\
      Forall2 (delivered updates (clock e) (clock e'))
              (sockets w) (sockets w'))).
Proof.
  intros H Hwf. apply tick_cases in H as (e1 & open & Hopen & H).
  apply isMarketOpenIST_Ret in Hopen as (_ & Hclk & _). destruct open.
  - destruct H as (r & updates & Hcyc).
    pose proof Hcyc as (_ & _ & _ & _ & _ & _ & _ & _ & Hdue' & _).
    apply (open_cycle_facts _ _ _ _ _ _ _ Hwf) in Hcyc.
    destruct Hcyc as (Hlen & _ & _ & _ & _ & _ & _ & Hdel & Hc').
    split; [lia|]. right. split; [exact Hdue'|]. exists updates.
    split; [pose proof (count_range r); lia|].
    eapply Forall2_impl; [|exact Hdel]. intros s s' Hd.
    eapply delivered_widen; [exact Hd | lia | lia].
  - destruct H as (_ & Hs & Hd & _ & ->). split; [lia|]. left. auto.
Qed.



(** ** The handlers of a connection *)

Lemma quiet_refl s : quiet s s.
Proof. unfold quiet. auto. Qed.

Lemma emit_quiet now s m : is_update (now, m) = false -> quiet s (emit_at now s m).
Proof.
  intros H. unfold quiet, emit_at. cbn [sid meta outbox].
  rewrite upd_times_app. unfold upd_times at 2. cbn [filter]. rewrite H.
  cbn [map]. rewrite app_nil_r. auto.
Qed.

Lemma quiet_trans a b c : quiet a b -> quiet b c -> quiet a c.
Proof.
  unfold quiet. intros (A1 & A2 & A3 & A4) (B1 & B2 & B3 & B4).
  repeat split; congruence.
Qed.

Lemma set_subs_quiet s l : quiet s (set_subs s l).
Proof. unfold quiet, set_subs. cbn. auto. Qed.

Lemma snapshot_of_total store syms :
  Forall (fun sym => read_truthy (read_instruments store sym) = true) syms ->
  exists snap, snapshot_of store syms = Some snap.
Proof.
  induction 1 as [|sym syms Hsym _ IH]; simpl.
  - eexists. reflexivity.
  - destruct IH as (snap & ->).
    destruct (read_instruments store sym); try discriminate;
      eexists; reflexivity.
Qed.

Lemma on_subscribe_quiet store now symbols s s' :
  on_subscribe store now symbols s = Returned s' -> quiet s s'.
Proof.
  unfold on_subscribe.
  destruct (negb (truthy symbols) || length_is_zero symbols).
  - destruct (snapshot_of store _) as [snap|]; [|discriminate].
    intros H. inversion H; subst.
    eapply quiet_trans; [|apply emit_quiet; reflexivity].
    eapply quiet_trans; apply set_subs_quiet.
  - destruct symbols; try discriminate.
    destruct (snapshot_of store _) as [snap|]; [|discriminate].
    intros H. inversion H; subst.
    eapply quiet_trans; [|apply emit_quiet; reflexivity].
    eapply quiet_trans; apply set_subs_quiet.
Qed.

Lemma on_unsubscribe_returns now symbols s :
  exists s', on_unsubscribe now symbols s = Returned s' /\ quiet s s'.
Proof.
  unfold on_unsubscribe.
  destruct (negb (truthy symbols) || negb (Array_isArray symbols)).
  - exists s. split; [reflexivity | apply quiet_refl].
  - destruct symbols; try (exists s; split; [reflexivity | apply quiet_refl]).
    eexists. split; [reflexivity|].
    eapply quiet_trans; [apply set_subs_quiet | apply emit_quiet; reflexivity].
Qed.

Lemma complete_Ret c e s' e' :
  complete c e = Ret s' e' -> c = Returned s' /\ e' = e.
Proof.
  destruct c; simpl; [|discriminate].
  intros H. apply ret_Ret in H as [<- <-]. auto.
Qed.

Lemma on_ping_quiet s e s' e' : on_ping s e = Ret s' e' -> quiet s s'.
Proof.
  unfold on_ping. intros H. unbind H as now e1 H1.
  apply ret_Ret in H as [<- <-]. apply emit_quiet. reflexivity.
Qed.

(** ** The event loop *)

Lemma dispatch_rel (R : Socket -> Socket -> Prop) id h :
  (forall s, R s s) ->
  (forall s e s' e', h s e = Ret s' e' -> R s s') ->
  forall socks e socks' e',
    dispatch id h socks e = Ret socks' e' -> Forall2 R socks socks'.
Proof.
  intros Hrefl Hh. induction socks as [|s rest IH]; intros e socks' e' H;
    simpl in H.
  - apply ret_Ret in H as [<- <-]. constructor.
  - destruct (sid s =? id)%nat.
    + unbind H as s1 e1 H1. apply ret_Ret in H as [<- <-].
      constructor; [eapply Hh, H1|].
      clear - Hrefl. induction rest; constructor; auto.
    + unbind H as rest1 e1 H1. apply ret_Ret in H as [<- <-].
      constructor; [apply Hrefl | eapply IH, H1].
Qed.

Lemma dispatch_clock id h :
  (forall s e s' e', h s e = Ret s' e' -> clock e <= clock e') ->
  forall socks e socks' e',
    dispatch id h socks e = Ret socks' e' -> clock e <= clock e'.
Proof.
  intros Hh. induction socks as [|s rest IH]; intros e socks' e' H; simpl in H.
  - apply ret_Ret in H as [_ <-]. lia.
  - destruct (sid s =? id)%nat.
    + unbind H as s1 e1 H1. apply ret_Ret in H as [_ <-]. eapply Hh, H1.
    + unbind H as rest1 e1 H1. apply ret_Ret in H as [_ <-]. eapply IH, H1.
Qed.

Lemma wait_until_Ret t e u e' :
  wait_until t e = Ret u e' -> t <= clock e' /\ clock e <= clock e'.
Proof. unfold wait_until. intros H. inversion H; subst. simpl. lia. Qed.

Lemma step_instruments tz ev w e w' e' :
  step tz ev w e = Ret w' e' -> ev <> ETimer ->
  instruments w' = instruments w /\ due w' = due w.
Proof.
  intros H Hev. destruct ev; cbn [step] in H; try congruence.
  - unbind H as s e1 H1. apply ret_Ret in H as [<- <-]. auto.
  - unbind H as now e1 H1. unbind H as socks e2 H2.
    apply ret_Ret in H as [<- <-]. auto.
  - unbind H as now e1 H1. unbind H as socks e2 H2.
    apply ret_Ret in H as [<- <-]. auto.
  - unbind H as socks e2 H2. apply ret_Ret in H as [<- <-]. auto.
  - apply ret_Ret in H as [<- <-]. auto.
Qed.

Lemma step_client tz ev w e w' e' :
  ev <> ETimer -> step tz ev w e = Ret w' e' ->
  clock e <= clock e' /\ Forall (client_step w e') (sockets w').
Proof.
  intros Hev H. unfold client_step. destruct ev; cbn [step] in H; try congruence.
  - unbind H as s e1 H1. apply ret_Ret in H as [<- <-]. cbn.
    unfold on_connection in H1. unbind H1 as now e2 H2.
    apply ret_Ret in H1 as [<- <-].
    apply Date_now_Ret in H2 as (d & _ & _ & Ht & Hc).
    split; [lia|]. apply Forall_app. split.
    + apply Forall_forall. intros s Hs. left. exists s.
      split; [exact Hs | apply quiet_refl].
    + constructor; [|constructor]. right. rewrite Hc. split; reflexivity.
  - unbind H as now e1 H1. apply peek_clock_Ret in H1 as [-> ->].
    unbind H as socks e2 H2. apply ret_Ret in H as [<- <-]. cbn. split.
    + eapply dispatch_clock; [|exact H2]. intros s ea s' eb Hc.
      apply complete_Ret in Hc as [_ ->]. lia.
    + eapply Forall_impl; [|eapply Forall2_from, dispatch_rel;
                            [apply quiet_refl | | exact H2]].
      * cbv beta. intros b Hb. left. exact Hb.
      * intros s ea s' eb Hc. apply complete_Ret in Hc as [Hc _].
        eapply on_subscribe_quiet, Hc.
  - unbind H as now e1 H1. apply peek_clock_Ret in H1 as [-> ->].
    unbind H as socks e2 H2. apply ret_Ret in H as [<- <-]. cbn. split.
    + eapply dispatch_clock; [|exact H2]. intros s ea s' eb Hc.
      apply complete_Ret in Hc as [_ ->]. lia.
    + eapply Forall_impl; [|eapply Forall2_from, dispatch_rel;
                            [apply quiet_refl | | exact H2]].
      * cbv beta. intros b Hb. left. exact Hb.
      * intros s ea s' eb Hc. apply complete_Ret in Hc as [Hc _].
        destruct (on_unsubscribe_returns (clock e) symbols s) as (s2 & E & Hq).
        congruence.
  - unbind H as socks e2 H2. apply ret_Ret in H as [<- <-]. cbn. split.
    + eapply dispatch_clock; [|exact H2]. intros s ea s' eb Hc.
      unfold on_ping in Hc. unbind Hc as now e3 H3.
      apply ret_Ret in Hc as [_ <-].
      apply Date_now_Ret in H3 as (d & _ & _ & Ht & Hc). lia.
    + eapply Forall_impl; [|eapply Forall2_from, dispatch_rel;
                            [apply quiet_refl | | exact H2]].
      * cbv beta. intros b Hb. left. exact Hb.
      * intros s ea s' eb Hc. eapply on_ping_quiet, Hc.
  - apply ret_Ret in H as [<- <-]. cbn. split; [lia|].
    apply Forall_forall. intros s Hs. apply filter_In in Hs as [Hs _].
    left. exists s. split; [exact Hs | apply quiet_refl].
Qed.

Lemma step_timer tz w e w' e' :
  step tz ETimer w e = Ret w' e' ->
  exists e1, due w <= clock e1 /\ clock e <= clock e1 /\
             tick tz w e1 = Ret w' e'.
Proof.
  cbn [step]. intros H. unbind H as u e1 H1.
  apply wait_until_Ret in H1 as [H1 H2]. exists e1. auto.
Qed.

Lemma tick_store tz w e w' e' :
  tick tz w e = Ret w' e' -> store_wf (instruments w) ->
  store_wf (instruments w') /\
  (forall P, tick_stable P -> store_all P (instruments w) ->
             store_all P (instruments w')).
Proof.
  intros H Hwf. apply tick_cases in H as (e1 & open & Hopen & H).
  destruct open.
  - destruct H as (r & updates & H).
    apply (open_cycle_facts _ _ _ _ _ _ _ Hwf) in H. tauto.
  - destruct H as (-> & _). auto.
Qed.

Lemma step_store tz ev w e w' e' :
  step tz ev w e = Ret w' e' -> store_wf (instruments w) ->
  store_wf (instruments w') /\
  (forall P, tick_stable P -> store_all P (instruments w) ->
             store_all P (instruments w')).
Proof.
  intros H Hwf. destruct ev;
    try (apply step_instruments in H as [-> _]; [auto | discriminate]).
  cbn [step] in H. unbind H as u e1 H1.
  apply tick_store in H; auto.
Qed.

Lemma run_store tz evs :
  forall w e w' e',
    run tz evs w e = Ret w' e' -> store_wf (instruments w) ->
    store_wf (instruments w') /\
    (forall P, tick_stable P -> store_all P (instruments w) ->
               store_all P (instruments w')).
Proof.
  induction evs as [|ev rest IH]; intros w e w' e' H Hw; simpl in H.
  - apply ret_Ret in H as [<- <-]. auto.
  - unbind H as w1 e1 H1.
    destruct (step_store _ _ _ _ _ _ H1 Hw) as [Hw1 Hp1].
    destruct (IH _ _ _ _ H Hw1) as [Hw' Hp']. auto.
Qed.

Lemma run_invariant (I : World -> Env -> Prop) tz :
  (forall ev w e w' e',
      store_wf (instruments w) -> I w e ->
      step tz ev w e = Ret w' e' -> I w' e') ->
  forall evs w e w' e',
    store_wf (instruments w) -> I w e ->
    run tz evs w e = Ret w' e' -> I w' e'.
Proof.
  intros Hstep. induction evs as [|ev rest IH]; intros w e w' e' Hs Hi H;
    simpl in H.
  - apply ret_Ret in H as [<- <-]. exact Hi.
  - unbind H as w1 e1 H1. eapply IH; [| |exact H].
    + eapply step_store; eauto.
    + eapply Hstep; eauto.
Qed.

Lemma boot_Ret d e w e' :
  boot d e = Ret w e' ->
  exists now, w = mkWorld (init_instruments d now) [] (clock e') 0 /\
              clock e <= clock e'.
Proof.
  unfold boot. intros H. unbind H as now e1 H1. unbind H as t e2 H2.
  apply peek_clock_Ret in H2 as [-> ->]. apply ret_Ret in H as [<- <-].
  apply Date_now_Ret in H1 as (l & _ & _ & Ht & Hc).
  exists now. split; [reflexivity | lia].
Qed.

(** Whatever holds of the seeded store and survives [simulateTick] holds of
    every reachable store. *)
Lemma reachable_store_all tz w e :
  reachable tz w e ->
  store_wf (instruments w) /\
  (forall P, tick_stable P ->
             (forall d now, store_all P (init_instruments d now)) ->
             store_all P (instruments w)).
Proof.
  intros (e0 & d & w0 & e1 & evs & Hb & Hr).
  apply boot_Ret in Hb as (now & -> & _).
  destruct (run_store _ _ _ _ _ _ Hr (init_store_wf d now)) as [Hwf Hp].
  split; [exact Hwf|]. intros P HP Hinit. apply (Hp P HP), Hinit.
Qed.

Lemma reachable_store tz w e :
  reachable tz w e -> store_wf (instruments w) /\ store_ok (instruments w).
Proof.
  intros Hr. apply reachable_store_all in Hr as [Hwf Hp].
  split; [exact Hwf|]. apply Hp.
  - intros pct r now st. apply simulateTick_at_ok.
  - apply init_store_ok.
Qed.

Lemma run_from_boot_reachable tz d evs e w e' :
  run_from_boot tz d evs e = Ret w e' -> reachable tz w e'.
Proof.
  unfold run_from_boot. intros H. unbind H as w0 e1 H1.
  exists e, d, w0, e1, evs. auto.
Qed.

(** ** What the loop keeps true of the rate state *)

Lemma window_fresh_later D now D' now' m :
  window_fresh D now m -> D <= D' -> now <= now' -> window_fresh D' now' m.
Proof. unfold window_fresh. intros [H1 H2] HD Hn. split; lia. Qed.

(** A check at [now] in a turn entered at [L], not before the timer was due:
    it admits, and the window stays fresh for the timer set in that turn. *)
Lemma window_fresh_check D c L now now' m :
  window_fresh D c m -> c <= L -> D <= L -> L <= now <= now' ->
  fst (allowSendRate_at now m) = true /\
  window_fresh (L + BROADCAST_INTERVAL_MS) now' (snd (allowSendRate_at now m)).
Proof.
  unfold window_fresh, BROADCAST_INTERVAL_MS. intros [Hs Hc] HcL HD Hn.
  pose proof (allowSendRate_at_spec now m) as Hspec.
  destruct (allowSendRate_at now m) as [ok m'].
  destruct Hspec as (Hok & _ & Hstart & Hcount). cbn [fst snd].
  unfold window_start, window_count, window_reset in *.
  unfold MAX_RATE_PER_SECOND in *.
  destruct (lastWindowStart m =? 0) eqn:E0; cbn [orb] in *.
  - subst ok. cbn in Hcount. split; [reflexivity|]. lia.
  - destruct (Z.ltb_spec 1000 (now - lastWindowStart m)).
    + subst ok. cbn in Hcount. split; [reflexivity|]. lia.
    + destruct (Z.ltb_spec (sentInWindow m) 50); subst ok.
      * split; [reflexivity|]. lia.
      * lia.
Qed.

Lemma step_fresh tz ev w e w' e' :
  store_wf (instruments w) -> world_fresh w e ->
  step tz ev w e = Ret w' e' -> world_fresh w' e'.
Proof.
  intros Hwf Hf H. unfold world_fresh in *.
  assert (Hev : ev = ETimer \/ ev <> ETimer)
    by (destruct ev; auto; right; discriminate).
  destruct Hev as [->|Hev].
  - apply step_timer in H as (e1 & Hd & Hc & H).
    apply tick_effects in H as (Hclk & [[-> Hdue]|[Hdue (updates & _ & Hall)]]);
      [| |exact Hwf].
    + eapply Forall_impl; [|exact Hf]. cbv beta. intros s Hs.
      eapply window_fresh_later; [exact Hs | lia | lia].
    + rewrite Hdue. eapply Forall2_transfer; [exact Hall | | exact Hf].
      intros s s' (now & Hnow & _ & -> & _) Hs. cbv beta in Hs.
      eapply window_fresh_check; [exact Hs | lia | lia | lia].
  - pose proof (step_instruments _ _ _ _ _ _ H Hev) as [_ Hdue].
    apply step_client in H as [Hclk Hall]; [|exact Hev].
    eapply Forall_impl; [|exact Hall]. cbv beta.
    intros s' [(s & Hin & (_ & Hq1 & Hq2 & _))|[Hm _]].
    + rewrite Forall_forall in Hf. specialize (Hf s Hin). cbv beta in Hf.
      unfold window_fresh in *. rewrite Hq1, Hq2, Hdue. lia.
    + unfold window_fresh. rewrite Hm. cbn. lia.
Qed.

(** On a reachable world every rate window has admitted at most three
    checks. *)
Lemma reachable_fresh tz w e : reachable tz w e -> world_fresh w e.
Proof.
  intros (e0 & d & w0 & e1 & evs & Hb & Hr).
  apply boot_Ret in Hb as (now & -> & _).
  eapply (run_invariant world_fresh); [apply step_fresh | | | exact Hr].
  - cbn. apply init_store_wf.
  - unfold world_fresh. cbn. constructor.
Qed.

(** On a reachable world the admission check admits, whenever it runs. *)
Lemma reachable_admits tz w e s now :
  reachable tz w e -> In s (sockets w) ->
  fst (allowSendRate_at now (meta s)) = true /\ 0 <= sentInWindow (meta s) <= 3.
Proof.
  intros Hr Hs. apply reachable_fresh in Hr. unfold world_fresh in Hr.
  rewrite Forall_forall in Hr. destruct (Hr s Hs) as [_ Hc].
  split; [|lia].
  pose proof (allowSendRate_at_spec now (meta s)) as Hspec.
  destruct (allowSendRate_at now (meta s)) as [ok m'].
  destruct Hspec as (-> & _). cbn [fst].
  unfold window_count, MAX_RATE_PER_SECOND.
  destruct (window_reset now (meta s)); [reflexivity|].
  apply Z.ltb_lt. lia.
Qed.

Lemma step_positive tz ev w e w' e' :
  store_wf (instruments w) -> starts_positive w e ->
  step tz ev w e = Ret w' e' -> starts_positive w' e'.
Proof.
  intros Hwf [Hc Hf] H. unfold starts_positive.
  assert (Hev : ev = ETimer \/ ev <> ETimer)
    by (destruct ev; auto; right; discriminate).
  destruct Hev as [->|Hev].
  - apply step_timer in H as (e1 & Hd & Hc1 & H).
    apply tick_effects in H as (Hclk & [[-> Hdue]|[Hdue (updates & _ & Hall)]]);
      [| |exact Hwf].
    + split; [lia | exact Hf].
    + split; [lia|]. eapply Forall2_transfer; [exact Hall | | exact Hf].
      intros s s' (now & Hnow & _ & -> & _) Hs. cbv beta in Hs.
      pose proof (allowSendRate_at_spec now (meta s)) as Hspec.
      destruct (allowSendRate_at now (meta s)) as [ok m'].
      destruct Hspec as (_ & _ & Hstart & _). cbn [snd]. rewrite Hstart.
      unfold window_start. destruct (window_reset now (meta s)); lia.
  - apply step_client in H as [Hclk Hall]; [|exact Hev].
    split; [lia|]. eapply Forall_impl; [|exact Hall]. cbv beta.
    intros s' [(s & Hin & (_ & Hq1 & _))|[Hm _]].
    + rewrite Forall_forall in Hf. rewrite Hq1. apply Hf, Hin.
    + rewrite Hm. cbn. lia.
Qed.

(** When the server boots after the epoch, no window start is ever 0. *)
Lemma reachable_positive e0 tz w e :
  reachable_from e0 tz w e -> 0 < clock e0 -> starts_positive w e.
Proof.
  intros (d & w0 & e1 & evs & Hb & Hr) H0.
  apply boot_Ret in Hb as (now & -> & Hc).
  eapply (run_invariant starts_positive); [apply step_positive | | | exact Hr].
  - cbn. apply init_store_wf.
  - split; [lia | cbn; constructor].
Qed.

(** ** What the loop keeps true of the times of the updates *)

Lemma paced_nil D now : paced D now [].
Proof.
  unfold paced, count_in. simpl.
  split; [constructor|]. repeat split; intros; lia.
Qed.

Lemma paced_later D now D' now' ts :
  paced D now ts -> D <= D' -> now <= now' -> paced D' now' ts.
Proof.
  unfold paced. intros (H0 & H1 & H2 & H3 & H4) HD Hn.
  split; [|split; [|split; [|split]]]; try assumption.
  - eapply Forall_impl; [|exact H0]. cbv beta. intros t Ht. lia.
  - intros u hi Hu. apply H1. lia.
  - intros u hi Hu. apply H2. lia.
Qed.

(** One more cycle, in a turn entered at [L] not before the timer was due:
    [k <= 6] updates at a time [now]. *)
Lemma paced_cycle D c L now now' k ts :
  paced D c ts -> c <= L -> D <= L -> L <= now <= now' -> (k <= 6)%nat ->
  paced (L + BROADCAST_INTERVAL_MS) now' (ts ++ repeat now k).
Proof.
  unfold paced, BROADCAST_INTERVAL_MS.
  intros (H0 & H1 & H2 & H3 & H4) HcL HD Hn Hk.
  assert (Hnew : forall u hi, (count_in u hi (repeat now k) <= 6)%nat).
  { intros u hi. rewrite count_in_repeat.
    destruct ((u <=? now) && (now <=? hi)); lia. }
  split; [|split; [|split; [|split]]].
  - apply Forall_app. split.
    + eapply Forall_impl; [|exact H0]. cbv beta. intros t Ht. lia.
    + apply Forall_forall. intros t Ht. apply repeat_spec in Ht. lia.
  - intros u hi Hu. rewrite count_in_app.
    rewrite (count_in_none u hi ts).
    + specialize (Hnew u hi). lia.
    + eapply Forall_impl; [|exact H0]. cbv beta. intros t Ht. lia.
  - intros u hi Hu. rewrite count_in_app.
    specialize (H1 u hi). specialize (Hnew u hi). lia.
  - intros u. rewrite count_in_app, count_in_repeat.
    destruct ((u <=? now) && (now <=? u + 799)) eqn:E.
    + apply andb_true_iff in E as [A B]. apply Z.leb_le in A, B.
      specialize (H1 u (u + 799)). lia.
    + specialize (H3 u). lia.
  - intros u. rewrite count_in_app, count_in_repeat.
    destruct ((u <=? now) && (now <=? u + 1000)) eqn:E.
    + apply andb_true_iff in E as [A B]. apply Z.leb_le in A, B.
      specialize (H2 u (u + 1000)). lia.
    + specialize (H4 u). lia.
Qed.

Lemma step_paced tz ev w e w' e' :
  store_wf (instruments w) -> world_paced w e ->
  step tz ev w e = Ret w' e' -> world_paced w' e'.
Proof.
  intros Hwf Hp H. unfold world_paced in *.
  assert (Hev : ev = ETimer \/ ev <> ETimer)
    by (destruct ev; auto; right; discriminate).
  destruct Hev as [->|Hev].
  - apply step_timer in H as (e1 & Hd & Hc & H).
    apply tick_effects in H as (Hclk & [[-> Hdue]|[Hdue (updates & Hlen & Hall)]]);
      [| |exact Hwf].
    + eapply Forall_impl; [|exact Hp]. cbv beta. intros s Hs.
      eapply paced_later; [exact Hs | lia | lia].
    + rewrite Hdue. eapply Forall2_transfer; [exact Hall | | exact Hp].
      intros s s' (now & Hnow & _ & _ & Hout) Hs. cbv beta in Hs.
      rewrite Hout, upd_times_app, upd_times_delivery.
      pose proof (delivery_length now updates (meta s)) as Hk.
      eapply paced_cycle; [exact Hs | lia | lia | lia | lia].
  - pose proof (step_instruments _ _ _ _ _ _ H Hev) as [_ Hdue].
    apply step_client in H as [Hclk Hall]; [|exact Hev].
    eapply Forall_impl; [|exact Hall]. cbv beta.
    intros s' [(s & Hin & (_ & _ & _ & Hq))|[_ Hm]].
    + rewrite Forall_forall in Hp. specialize (Hp s Hin). cbv beta in Hp.
      rewrite Hq, Hdue. eapply paced_later; [exact Hp | lia | lia].
    + rewrite Hm. apply paced_nil.
Qed.

Lemma reachable_paced tz w e : reachable tz w e -> world_paced w e.
Proof.
  intros (e0 & d & w0 & e1 & evs & Hb & Hr).
  apply boot_Ret in Hb as (now & -> & _).
  eapply (run_invariant world_paced); [apply step_paced | | | exact Hr].
  - cbn. apply init_store_wf.
  - unfold world_paced. cbn. constructor.
Qed.

(** * The claims *)

(** ** C1: what a connection receives in an open cycle *)







(** The first client, subscribed to TSLA, is sent the one update for TSLA
    although AAPL and MSFT are mutated in the same cycle; the second,
    subscribed to IBM, is sent none and its window count still goes up. *)
Example demo_delivery :
  map symbol
      (filter (fun st => negb (ts st =? 1767335400000))
              (map snd (instruments (world_of demo_after))))
  = ["AAPL"; "TSLA"; "MSFT"]%string /\
  map (fun m => match snd m with
                | Update q => Some (q_symbol q, q_last q)
                | _ => None
                end)
      (skipn 2 (outbox (demo_socket 0 demo_after)))
  = [Some ("TSLA"%string, (4085313 # 10000)%Q)] /\
  skipn 2 (outbox (demo_socket 1 demo_after)) = [] /\
  sentInWindow (meta (demo_socket 1 demo_before)) = 0 /\
  sentInWindow (meta (demo_socket 1 demo_after)) = 1.
Proof. repeat split; vm_compute; reflexivity. Qed.

(** ** C2: the price invariant *)

(** C2: for every instrument, at initialization from the seed table and
    after every tick mutation, low <= close <= high and low <= open <= high:
    the seeded store satisfies it, so does the store of every world the
    server can reach, and so does whatever [simulateTick] makes of an
    instrument that satisfies it. *)
Theorem ohlc_invariant (tz : Z -> Z) (w : World) (e : Env) :
  reachable tz w e ->
  (forall d now, store_ok (init_instruments d now)) /\
  store_ok (instruments w) /\
  (forall sym st e1 u e2,
      own (instruments w) sym = Some st ->
      simulateTick st e1 = Ret u e2 -> ohlc_ok u).
Proof.
  intros Hr. apply reachable_store in Hr as [Hwf Hok].
  split; [intros d now; apply init_store_ok|]. split; [exact Hok|].
  intros sym st e1 u e2 Hown Hu.
  apply simulateTick_Ret in Hu as (r1 & r2 & d & _ & _ & _ & ->).
  apply simulateTick_at_ok. apply own_In in Hown.
  unfold store_ok, store_all in Hok. rewrite Forall_forall in Hok.
  apply (Hok _ Hown).
Qed.

Lemma ohlc_invariant_witness :
  reachable utc_host (world_of demo_full) (env_of demo_full) /\
  store_ok (instruments (world_of demo_full)).
Proof.
  assert (H : reachable utc_host (world_of demo_full) (env_of demo_full)).
  { apply (run_from_boot_reachable utc_host "2026-01-02"
             (demo_events ++ [ETimer]) demo_env).
    vm_compute. reflexivity. }
  split; [exact H|].
  apply (ohlc_invariant utc_host (world_of demo_full) (env_of demo_full) H).
Defined.

(** ** C3: the day change of a quote *)

Example seed_AAPL_is_seeded :
  own (init_instruments "2026-01-02" 0) "AAPL" = Some seed_AAPL.
Proof. reflexivity. Qed.

Example seed_AAPL_quote :
  day_change (formatQuote seed_AAPL) = (33500 # 10000)%Q /\
  day_change_percent (formatQuote seed_AAPL) = (14661 # 10000)%Q.
Proof. split; vm_compute; reflexivity. Qed.












(** ** C4: how many updates fit in a rate window *)

(** C4: on every connection of every world the server can reach, the
    [update] messages sent within any stretch of one second number at most
    [MAX_RATE_PER_SECOND].  A rate window opened at [t] only admits checks at
    times in [t, t + 1000], so this bounds every rate window.  (The turns of
    the timer are at least [BROADCAST_INTERVAL_MS] apart and send at most 6
    messages each, so the count in fact never exceeds 18.) *)
Theorem updates_per_window_bounded (tz : Z -> Z) (w : World) (e : Env)
    (s : Socket) (t : Z) :
  reachable tz w e -> In s (sockets w) ->
  Z.of_nat (updates_between t (t + 1000) (outbox s)) <= MAX_RATE_PER_SECOND /\
  (updates_between t (t + 1000) (outbox s) <= 18)%nat.
Proof.
  intros Hr Hs. apply reachable_paced in Hr. unfold world_paced in Hr.
  rewrite Forall_forall in Hr. destruct (Hr s Hs) as (_ & _ & _ & _ & H).
  rewrite updates_between_times. specialize (H t).
  unfold MAX_RATE_PER_SECOND. lia.
Qed.

Lemma updates_per_window_bounded_witness :
  Z.of_nat (updates_between 1767335400000 (1767335400000 + 1000)
              (outbox (demo_socket 0 demo_full)))
  <= MAX_RATE_PER_SECOND.
Proof.
  apply (updates_per_window_bounded utc_host (world_of demo_full)
           (env_of demo_full) (demo_socket 0 demo_full) 1767335400000).
  - apply (run_from_boot_reachable utc_host "2026-01-02"
             (demo_events ++ [ETimer]) demo_env).
    vm_compute. reflexivity.
  - vm_compute. left. reflexivity.
Defined.

(** ** C5: the admission check *)

Lemma checks_in_window t0 :
  t0 <> 0 ->
  forall later m,
    lastWindowStart m = t0 ->
    Forall (fun t => t - t0 <= 1000) later ->
    fst (checks later m)
    = map (fun i => sentInWindow m + Z.of_nat i <? MAX_RATE_PER_SECOND)
          (seq 0 (List.length later)) /\
    lastWindowStart (snd (checks later m)) = t0.
Proof.
  intros Ht0. induction later as [|t later IH]; intros m Hm Hall.
  - simpl. auto.
  - apply Forall_cons_iff in Hall as [Ht Hall]. cbv beta in Ht.
    cbn [checks List.length seq map].
    assert (Hkeep : window_reset t m = false)
      by (apply window_reset_false; lia).
    rewrite (allowSendRate_at_keep t m Hkeep), Z.add_0_r.
    destruct (Z.ltb_spec (sentInWindow m) MAX_RATE_PER_SECOND) as [Hlt|Hge].
    + specialize (IH (mkMeta (subs m) (lastWindowStart m) (sentInWindow m + 1))
                     Hm Hall).
      destruct (checks later _) as [oks m2]. cbn [fst snd] in *.
      destruct IH as [-> ->]. split; [|reflexivity]. f_equal.
      rewrite <- seq_shift, map_map. apply map_ext. intros i.
      cbn [sentInWindow]. f_equal. lia.
    + specialize (IH m Hm Hall).
      destruct (checks later m) as [oks m2]. cbn [fst snd] in *.
      destruct IH as [-> ->]. split; [|reflexivity]. f_equal.
      rewrite <- seq_shift, map_map. apply map_ext. intros i.
      destruct (Z.ltb_spec (sentInWindow m + Z.of_nat i) MAX_RATE_PER_SECOND);
        destruct (Z.ltb_spec (sentInWindow m + Z.of_nat (S i))
                             MAX_RATE_PER_SECOND); [lia | lia | lia | reflexivity].
Qed.

(** C5: an admission check at [now] on a rate state with a window start
    first resets the window when more than 1000 ms have passed since its
    start, and then admits, counting one; within the window it denies when
    the count has reached [MAX_RATE_PER_SECOND] and otherwise admits and
    counts one more.  So of the checks from a reset at [t0] on, as long as
    they fall within that window, exactly the first [MAX_RATE_PER_SECOND]
    admit and all further ones deny. *)
Theorem allowSendRate_policy (m : Meta) (t0 : Z) (later : list Z) :
  t0 <> 0 -> window_reset t0 m = true ->
  Forall (fun t => t - t0 <= 1000) later ->
  (forall now m0,
      1000 < now - lastWindowStart m0 ->
      allowSendRate_at now m0 = (true, mkMeta (subs m0) now 1)) /\
  (forall now m0,
      lastWindowStart m0 <> 0 -> now - lastWindowStart m0 <= 1000 ->
      MAX_RATE_PER_SECOND <= sentInWindow m0 ->
      allowSendRate_at now m0 = (false, m0)) /\
  (forall now m0,
      lastWindowStart m0 <> 0 -> now - lastWindowStart m0 <= 1000 ->
      sentInWindow m0 < MAX_RATE_PER_SECOND ->
      allowSendRate_at now m0
      = (true, mkMeta (subs m0) (lastWindowStart m0) (sentInWindow m0 + 1))) /\
  fst (checks (t0 :: later) m)
  = map (fun i => Z.of_nat i <? MAX_RATE_PER_SECOND)
        (seq 0 (S (List.length later))) /\
  lastWindowStart (snd (checks (t0 :: later) m)) = t0.
Proof.
  intros Ht0 Hreset Hall.
  split; [|split; [|split]].
  - intros now m0 H. apply allowSendRate_at_reset. unfold window_reset. lia.
  - intros now m0 H1 H2 H3.
    rewrite allowSendRate_at_keep by (apply window_reset_false; assumption).
    destruct (Z.ltb_spec (sentInWindow m0) MAX_RATE_PER_SECOND); [lia|].
    reflexivity.
  - intros now m0 H1 H2 H3.
    rewrite allowSendRate_at_keep by (apply window_reset_false; assumption).
    destruct (Z.ltb_spec (sentInWindow m0) MAX_RATE_PER_SECOND); [|lia].
    reflexivity.
  - cbn [checks]. rewrite (allowSendRate_at_reset _ _ Hreset).
    destruct (checks_in_window t0 Ht0 later (mkMeta (subs m) t0 1) eq_refl Hall)
      as [Hf Hs].
    destruct (checks later _) as [oks m2]. cbn [fst snd] in *.
    rewrite Hf, Hs. split; [|reflexivity].
    cbn [seq map]. f_equal.
    rewrite <- seq_shift, map_map. apply map_ext. intros i.
    cbn [sentInWindow]. f_equal. lia.
Qed.

Lemma allowSendRate_policy_witness :
  fst (checks (burst_start :: burst_later) burst_meta)
  = repeat true 50 ++ repeat false 11.
Proof.
  destruct (allowSendRate_policy burst_meta burst_start burst_later)
    as (_ & _ & _ & H & _).
  - unfold burst_start. lia.
  - vm_compute. reflexivity.
  - unfold burst_later. apply Forall_forall. intros t Ht.
    apply in_map_iff in Ht as (i & <- & Hi). apply in_seq in Hi. lia.
  - rewrite H. vm_compute. reflexivity.
Defined.

(** ** C6: subscribe *)

(** An absent, falsy or empty payload subscribes to the whole universe. *)
Lemma on_subscribe_everything store now symbols s :
  store_wf store ->
  negb (truthy symbols) || length_is_zero symbols = true ->
  exists snap,
    on_subscribe store now symbols s
    = Returned (emit_at now (set_subs s universe) (Snapshot snap)).
Proof.
  intros [Hkeys Hsyms] Hp. unfold on_subscribe. rewrite Hp.
  rewrite Hkeys, (add_all_NoDup universe []) by (apply universe_NoDup).
  cbn [app set_subs meta subs sid lastWindowStart sentInWindow outbox].
  destruct (snapshot_of_total store universe) as (snap & Hsnap).
  - apply Forall_forall. intros sym Hin. rewrite <- Hkeys in Hin.
    apply own_key in Hin as (st & Hst). unfold read_instruments.
    rewrite Hst. reflexivity.
  - rewrite Hsnap. exists snap. reflexivity.
Qed.

(** A non-empty list of strings, none of them a member name of
    [Object.prototype], subscribes to its symbols that are in the universe. *)
Lemma on_subscribe_listed store now elems s :
  store_wf store -> elems <> [] ->
  Forall (fun sym => ~ In sym Object_prototype_keys) elems ->
  exists s',
    on_subscribe store now (JsArray elems) s = Returned s' /\
    NoDup (subs (meta s')) /\
    (forall sym, In sym (subs (meta s')) <-> In sym elems /\ In sym universe) /\
    quiet s s'.
Proof.
  intros [Hkeys Hsyms] Hne Hproto. unfold on_subscribe.
  assert (Hp : negb (truthy (JsArray elems)) || length_is_zero (JsArray elems)
               = false).
  { destruct elems; [congruence | reflexivity]. }
  rewrite Hp.
  set (kept := filter (fun sym => read_truthy (read_instruments store sym)) elems).
  destruct (add_all_spec kept [] (NoDup_nil _)) as [Hnd Hin].
  cbn [set_subs meta subs sid lastWindowStart sentInWindow outbox].
  destruct (snapshot_of_total store (fold_left set_add kept [])) as (snap & Hsnap).
  - apply Forall_forall. intros sym Hs. apply Hin in Hs as [[]|Hs].
    apply filter_In in Hs. apply Hs.
  - rewrite Hsnap. eexists. split; [reflexivity|].
    cbn [emit_at meta subs]. split; [exact Hnd|]. split.
    + intros sym. rewrite Hin. unfold kept. rewrite filter_In.
      rewrite <- Hkeys, own_key. unfold read_instruments. split.
      * intros [[]|[He Hr]]. split; [exact He|].
        destruct (own store sym) as [st|]; [eexists; reflexivity|].
        rewrite Forall_forall in Hproto. specialize (Hproto sym He).
        apply set_has_false in Hproto. rewrite Hproto in Hr. discriminate.
      * intros [He (st & Hst)]. right. rewrite Hst. auto.
    + eapply quiet_trans; [|apply emit_quiet; reflexivity].
      eapply quiet_trans; apply set_subs_quiet.
Qed.

Example subscribe_AAPL_UNKNOWN :
  exists snap,
    on_subscribe seeded 0 (JsArray ["AAPL"; "UNKNOWN"]%string) fresh_socket
    = Returned (emit_at 0 (set_subs fresh_socket ["AAPL"%string])
                        (Snapshot snap)).
Proof. eexists. vm_compute. reflexivity. Qed.

(** C6 fails on a payload that is not a list but truthy, such as the string
    ["AAPL"]: the handler has emptied the subscription set when
    [symbols.filter] throws, where the claim has the set become the universe
    without any error.  It also fails on a list that names a member of
    [Object.prototype], such as [["constructor"]]: the name is kept although
    it is no known symbol. *)
Theorem subscribe_defects :
  on_subscribe seeded 0 (JsString "AAPL") fresh_socket
  = Thrown "TypeError: symbols.filter is not a function"
           (set_subs fresh_socket []) /\
  on_subscribe seeded 0 (JsNumber 5) fresh_socket
  = Thrown "TypeError: symbols.filter is not a function"
           (set_subs fresh_socket []) /\
  on_subscribe seeded 0 (JsObject []) fresh_socket
  = Thrown "TypeError: symbols.filter is not a function"
           (set_subs fresh_socket []) /\
  on_subscribe seeded 0 (JsArray ["constructor"%string]) fresh_socket
  = Returned (emit_at 0 (set_subs fresh_socket ["constructor"%string])
                      (Snapshot [None])) /\
  ~ In "constructor"%string universe.
Proof.
  repeat split; try (vm_compute; reflexivity).
  unfold universe, BASE_OHLC. simpl. intuition discriminate.
Qed.

(** ** C7: the market gate *)

Lemma minutes_of_day (x : Z) :
  ((x / 3600000) mod 24) * 60 + (x / 60000) mod 60 = (x / 60000) mod 1440.
Proof.
  replace (x / 3600000) with ((x / 60000) / 60)
    by (rewrite Z.div_div by lia; reflexivity).
  set (y := x / 60000).
  change 1440 with (60 * 24).
  rewrite (Z.rem_mul_r y 60 24) by lia. lia.
Qed.

(** On a host whose offset from UTC is the same now and at the shifted
    instant that [nowInIST] builds (any host without a change of offset in
    between, such as one that keeps UTC), the gate is the one of the
    specification. *)
Lemma gate_fixed_offset (tz : Z -> Z) (now : Z) :
  tz (nowInIST_at tz now) = tz now ->
  isMarketOpenIST_at tz now = spec_market_open now.
Proof.
  intros Htz. unfold isMarketOpenIST_at, spec_market_open, ist_minutes.
  unfold getHours, getMinutes, getTime_local. rewrite Htz.
  unfold nowInIST_at.
  replace (now + tz now * 60000 + IST_OFFSET_MINUTES * 60000 - tz now * 60000)
    with (now + IST_OFFSET_MINUTES * 60000) by lia.
  rewrite minutes_of_day. reflexivity.
Qed.

Lemma gate_on_utc_host (now : Z) :
  isMarketOpenIST_at utc_host now = spec_market_open now.
Proof. apply gate_fixed_offset. reflexivity. Qed.

(** 2026-01-02 at 12:00, 09:00 and 20:00 IST, on a host that keeps UTC. *)
Example gate_samples_utc :
  isMarketOpenIST_at utc_host 1767335400000 = true /\
  isMarketOpenIST_at utc_host 1767324600000 = false /\
  isMarketOpenIST_at utc_host 1767364200000 = false.
Proof. repeat split; vm_compute; reflexivity. Qed.

(** C7 fails on a host in America/New_York at 2026-03-08T03:30:00Z: it is
    09:00 in IST (540 minutes after midnight), so the gate of the claim is
    closed, but the host's offset changes from 300 to 240 minutes between
    that instant and the shifted one, [getHours()] reads 10, and the gate of
    the code is open. *)
Theorem gate_on_dst_host :
  ist_minutes t_0900_IST = 540 /\
  spec_market_open t_0900_IST = false /\
  new_york_2026 t_0900_IST = 300 /\
  new_york_2026 (nowInIST_at new_york_2026 t_0900_IST) = 240 /\
  getHours new_york_2026 (nowInIST_at new_york_2026 t_0900_IST) = 10 /\
  getMinutes new_york_2026 (nowInIST_at new_york_2026 t_0900_IST) = 0 /\
  isMarketOpenIST_at new_york_2026 t_0900_IST = true.
Proof. repeat split; vm_compute; reflexivity. Qed.

(** ** C8: the tick generator *)






(** ** C9: unsubscribe *)


(** ** C10: one admission per connection and cycle *)

(** C10: in a cycle that the market gate reads as open, every live
    connection goes through the admission check exactly once, the check
    admits, and the window count goes up by exactly one whatever the number
    of [update] messages then sent under it: these are the instruments of
    the batch that the connection subscribes to, at most the batch size,
    which is at most 6, and possibly none. *)
Theorem one_admission_per_cycle (tz : Z -> Z) (w : World) (e0 : Env)
    (e e1 : Env) (w' : World) (e' : Env) :
  reachable tz w e0 ->
  isMarketOpenIST tz e = Ret true e1 ->
  tick tz w e = Ret w' e' ->
  exists updates,
    Z.of_nat (List.length updates) <= 6 /\
    Forall2 (fun s s' =>
               exists now sent,
                 clock e <= now <= clock e' /\
                 allowSendRate_at now (meta s) = (true, meta s') /\
                 sentInWindow (meta s') = window_count now (meta s) + 1 /\
                 sent = filter (fun u => set_has (subs (meta s)) (symbol u))
                               updates /\
                 outbox s' = outbox s
                             ++ map (fun u => (now, Update (formatQuote u))) sent /\
                 (List.length sent <= List.length updates)%nat)
            (sockets w) (sockets w').
Proof.
  intros Hreach Hopen Htick.
  pose proof (reachable_fresh _ _ _ Hreach) as Hfresh.
  assert (Hadm : Forall (fun s => forall now,
                             fst (allowSendRate_at now (meta s)) = true)
                        (sockets w)).
  { apply Forall_forall. intros s Hs now.
    apply (reachable_admits tz w e0 s now Hreach Hs). }
  apply reachable_store in Hreach as [Hwf _].
  destruct (tick_open _ _ _ _ _ _ Hopen Htick) as (r & updates & Hcyc & Hclk).
  apply (open_cycle_facts _ _ _ _ _ _ _ Hwf) in Hcyc.
  destruct Hcyc as (Hlen & _ & _ & _ & _ & _ & _ & Hdel & _).
  exists updates. split; [pose proof (count_range r); lia|].
  eapply Forall2_impl; [|exact (Forall2_with_l _ _ _ _ Hadm Hdel)].
  intros s s' (Hok & now & Hnow & _ & Hmeta & Hout).
  specialize (Hok now).
  exists now, (filter (fun u => set_has (subs (meta s)) (symbol u)) updates).
  pose proof (allowSendRate_at_spec now (meta s)) as Hspec.
  unfold delivery in Hout. rewrite Hok in Hout.
  destruct (allowSendRate_at now (meta s)) as [ok m'].
  destruct Hspec as (_ & _ & _ & Hcount). cbn [fst snd] in *. subst ok m'.
  split; [lia|]. split; [reflexivity|]. split; [exact Hcount|].
  split; [reflexivity|]. split; [exact Hout|]. apply filter_length_le.
Qed.

Lemma one_admission_per_cycle_witness :
  exists updates : list Instrument,
    Z.of_nat (List.length updates) <= 6 /\
    List.length (sockets (world_of demo_after))
    = List.length (sockets (world_of demo_before)).
Proof.
  destruct (one_admission_per_cycle utc_host (world_of demo_before)
              (env_of demo_before) (env_of demo_before) demo_gate_env
              (world_of demo_after) (env_of demo_after))
    as (updates & H1 & H2).
  - apply (run_from_boot_reachable utc_host "2026-01-02" demo_events demo_env).
    vm_compute. reflexivity.
  - vm_compute. reflexivity.
  - vm_compute. reflexivity.
  - exists updates. split; [exact H1|].
    symmetry. eapply Forall2_length, H2.
Defined.

(** * Further properties of the code *)

(** ** The health endpoint *)

Lemma before_query_append (p q : string) :
  plain_path p -> before_query (p ++ String "?"%char q) = p.
Proof.
  unfold plain_path. induction p as [|c p IH]; intros H; simpl in *.
  - reflexivity.
  - destruct (Ascii.eqb c "?"%char); [discriminate|].
    injection H as H'. rewrite (IH H'). reflexivity.
Qed.

Lemma health_not_socket_io (path : string) :
  set_has healthPaths path = true -> String.prefix "/socket.io" path = false.
Proof.
  intros H. apply set_has_In in H. simpl in H.
  repeat (destruct H as [<-|H]; [reflexivity|]). contradiction.
Qed.

(** X1: the health endpoint looks only at what precedes the query string:
    a request for a non-empty path [p] followed by any query is answered as
    the request for [p]; a request with no URL or an empty one is answered
    as the request for "/"; and a path that begins with "/socket.io" is
    never answered, whatever the method. *)
Theorem health_endpoint (uptime : Q) (m p q : string) :
  p <> EmptyString -> plain_path p ->
  httpHandler uptime (mkRequest m (Some (p ++ String "?"%char q)%string))
  = httpHandler uptime (mkRequest m (Some p)) /\
  httpHandler uptime (mkRequest m None)
  = httpHandler uptime (mkRequest m (Some "/"%string)) /\
  httpHandler uptime (mkRequest m (Some EmptyString))
  = httpHandler uptime (mkRequest m (Some "/"%string)) /\
  (String.prefix "/socket.io" p = true ->
   httpHandler uptime (mkRequest m (Some p)) = ret Unanswered).
Proof.
  intros Hne Hp. split; [|split; [reflexivity|split; [reflexivity|]]].
  - assert (E : request_path (Some (p ++ String "?"%char q)%string)
                = request_path (Some p)).
    { unfold request_path. destruct p as [|c p]; [congruence|].
      replace (String.eqb (String c p ++ String "?"%char q) "") with false
        by reflexivity.
      replace (String.eqb (String c p) "") with false by reflexivity.
      rewrite (before_query_append (String c p) q Hp), Hp. reflexivity. }
    unfold httpHandler. cbn [req_url req_method]. rewrite E. reflexivity.
  - intros Hs.
    assert (E : request_path (Some p) = p).
    { unfold request_path. destruct p as [|c p]; [congruence|].
      replace (String.eqb (String c p) "") with false by reflexivity.
      exact Hp. }
    unfold httpHandler. cbn [req_url req_method]. rewrite E, Hs.
    destruct (set_has healthPaths p) eqn:Eh.
    + apply health_not_socket_io in Eh. congruence.
    + rewrite andb_false_r. reflexivity.
Qed.

Lemma health_endpoint_witness :
  httpHandler 12 (mkRequest "GET" (Some "/health?probe=1"%string))
  = httpHandler 12 (mkRequest "GET" (Some "/health"%string)).
Proof.
  apply (health_endpoint 12 "GET" "/health" "probe=1").
  - discriminate.
  - reflexivity.
Defined.

(** ** Subscribing *)

Lemma read_truthy_known store sym :
  read_truthy (read_instruments store sym) = true <-> known store sym.
Proof.
  unfold read_instruments, known. destruct (own store sym) as [st|] eqn:E.
  - split; [|reflexivity]. intros _. left. apply own_key. eauto.
  - destruct (set_has Object_prototype_keys sym) eqn:Ep.
    + apply set_has_In in Ep. split; auto.
    + apply set_has_false in Ep. split; [discriminate|].
      intros [H|H]; [|contradiction].
      apply own_key in H as (st & H). congruence.
Qed.

Lemma snapshot_of_entries store syms :
  Forall (known store) syms ->
  snapshot_of store syms = Some (map (snapshot_entry store) syms).
Proof.
  induction 1 as [|sym syms Hsym _ IH]; [reflexivity|].
  cbn [snapshot_of map]. rewrite IH. unfold snapshot_entry.
  apply read_truthy_known in Hsym. unfold read_instruments in *.
  destruct (own store sym) as [st|]; [reflexivity|].
  destruct (set_has Object_prototype_keys sym); [reflexivity | discriminate].
Qed.

Lemma own_entry store k v :
  NoDup (Object_keys store) -> In (k, v) store -> own store k = Some v.
Proof.
  unfold Object_keys. induction store as [|[k' v'] store IH]; intros Hnd Hin;
    [contradiction|].
  cbn in Hnd. apply NoDup_cons_iff in Hnd as [Hnot Hnd]. cbn [own].
  destruct Hin as [E|Hin].
  - inversion E; subst. rewrite String.eqb_refl. reflexivity.
  - destruct (String.eqb_spec k' k) as [->|Hne]; [|apply IH; assumption].
    exfalso. apply Hnot. apply (in_map fst) in Hin. exact Hin.
Qed.

Lemma entries_of_keys store :
  NoDup (Object_keys store) ->
  map (snapshot_entry store) (Object_keys store)
  = map (fun kv => Some (formatQuote (snd kv))) store.
Proof.
  intros Hnd. unfold Object_keys. rewrite map_map. apply map_ext_in.
  intros [k v] Hin. unfold snapshot_entry. cbn [fst snd].
  rewrite (own_entry store k v Hnd Hin). reflexivity.
Qed.




(** X3: subscribing with no payload, a falsy one or an empty list, on a
    store without duplicate keys, subscribes to every key of [instruments]
    in the order of [Object.keys] and emits one snapshot that holds the
    formatted state of every instrument, in that order. *)
Theorem subscribe_everything (store : Store) (now : Z) (symbols : JsValue)
    (s : Socket) :
  NoDup (Object_keys store) ->
  negb (truthy symbols) || length_is_zero symbols = true ->
  on_subscribe store now symbols s
  = Returned (emit_at now (set_subs s (Object_keys store))
                (Snapshot (map (fun kv => Some (formatQuote (snd kv))) store))).
Proof.
  intros Hnd Hp. unfold on_subscribe. rewrite Hp.
  rewrite (add_all_NoDup (Object_keys store) []) by exact Hnd.
  cbn [app set_subs meta subs sid lastWindowStart sentInWindow outbox].
  rewrite snapshot_of_entries.
  - rewrite (entries_of_keys store Hnd). reflexivity.
  - apply Forall_forall. intros sym Hs. left. exact Hs.
Qed.

Lemma subscribe_everything_witness :
  exists s',
    on_subscribe seeded 5 (JsArray []) fresh_socket = Returned s' /\
    subs (meta s') = universe /\ List.length (outbox s') = 1%nat.
Proof.
  eexists. split; [|split].
  - apply (subscribe_everything seeded 5 (JsArray []) fresh_socket).
    + apply universe_NoDup.
    + reflexivity.
  - reflexivity.
  - reflexivity.
Defined.





(** ** The store along a run *)

Lemma demo_full_reachable :
  reachable utc_host (world_of demo_full) (env_of demo_full).
Proof.
  apply (run_from_boot_reachable utc_host "2026-01-02"
           (demo_events ++ [ETimer]) demo_env).
  vm_compute. reflexivity.
Qed.

Lemma wf_keys_NoDup store : store_wf store -> NoDup (Object_keys store).
Proof. intros [-> _]. apply universe_NoDup. Qed.

Lemma Event_is_timer (ev : Event) : ev = ETimer \/ ev <> ETimer.
Proof. destruct ev; (left; reflexivity) || (right; discriminate). Qed.

(** Where the entries of the store after an open cycle come from. *)
Lemma cycle_entries store store' lo hi updates :
  store_wf store -> store_wf store' ->
  (forall sym, ~ In sym (map symbol updates) -> own store' sym = own store sym) ->
  Forall (mutated_by store store' lo hi) updates ->
  forall k v,
    In (k, v) store' ->
    In (k, v) store \/
    exists st r1 r2 now,
      In (k, st) store /\
      v = simulateTick_at ((rv r1 * 2 - 1) * 0.004)%Q r2 now st /\
      lo <= now <= hi.
Proof.
  intros Hwf Hwf' Hsame Hmut k v Hin.
  pose proof (own_entry _ _ _ (wf_keys_NoDup _ Hwf') Hin) as Hown.
  destruct (in_dec string_dec k (map symbol updates)) as [Hk|Hk].
  - right. apply in_map_iff in Hk as (u & <- & Hu).
    rewrite Forall_forall in Hmut.
    destruct (Hmut u Hu) as (st & r1 & r2 & now & A & B & C & D).
    exists st, r1, r2, now. split; [apply own_In, A|].
    split; [congruence | exact C].
  - left. apply own_In. rewrite <- (Hsame k Hk). exact Hown.
Qed.


(** Where the entries of the store after one event come from. *)
Lemma step_entries tz ev w e w' e' :
  step tz ev w e = Ret w' e' -> store_wf (instruments w) ->
  forall k v,
    In (k, v) (instruments w') ->
    In (k, v) (instruments w) \/
    exists st r1 r2 now,
      In (k, st) (instruments w) /\
      v = simulateTick_at ((rv r1 * 2 - 1) * 0.004)%Q r2 now st /\
      clock e <= now <= clock e'.
Proof.
  intros H Hwf k v Hin.
  destruct (Event_is_timer ev) as [->|Hev].
  - apply step_timer in H as (e1 & _ & Hc1 & H).
    apply tick_cases in H as (e2 & open & Hgate & H).
    apply isMarketOpenIST_Ret in Hgate as (_ & Hc2 & _).
    destruct open.
    + destruct H as (r & updates & Hcyc).
      pose proof (open_cycle_facts _ _ _ _ _ _ _ Hwf Hcyc)
        as (_ & _ & _ & Hwf' & _ & Hsame & Hmut & _ & Hc3).
      destruct (cycle_entries _ _ _ _ _ Hwf Hwf' Hsame Hmut k v Hin)
        as [Hold | (st & r1 & r2 & now & A & B & C)]; [left; exact Hold|].
      right. exists st, r1, r2, now. repeat split; auto; lia.
    + destruct H as (Hi & _). left. rewrite <- Hi. exact Hin.
  - apply step_instruments in H as [Hi _]; [|exact Hev].
    left. rewrite <- Hi. exact Hin.
Qed.

Lemma step_clock tz ev w e w' e' :
  step tz ev w e = Ret w' e' -> store_wf (instruments w) -> clock e <= clock e'.
Proof.
  intros H Hwf. destruct (Event_is_timer ev) as [->|Hev].
  - apply step_timer in H as (e1 & _ & Hc1 & H).
    apply tick_effects in H as [Hc _]; [lia | exact Hwf].
  - apply (step_client _ _ _ _ _ _ Hev) in H as [Hc _]. exact Hc.
Qed.







(** ** Prices stay positive *)

Lemma Qfloor_ge (k : Z) (x : Q) : (inject_Z k <= x)%Q -> k <= Qfloor x.
Proof. intros H. apply Qfloor_resp_le in H. rewrite Qfloor_Z in H. exact H. Qed.



Lemma toFixed4_floor (x : Q) :
  (1 # 20000 <= x)%Q -> (1 # 10000 <= toFixed4 x)%Q.
Proof.
  intros Hx. unfold toFixed4.
  assert (E : Qltb x 0 = false) by (apply Qltb_ge; lra). rewrite E.
  assert (Hn : 1 <= Qfloor (Qabs x * 10000 + (1 # 2))).
  { apply (Qfloor_ge 1). rewrite Qabs_pos by lra.
    change (inject_Z 1) with 1%Q. lra. }
  revert Hn. generalize (Qfloor (Qabs x * 10000 + (1 # 2))). intros n Hn.
  unfold Qle. cbn. lia.
Qed.

Lemma priced_draw_stable : draw_stable priced.
Proof.
  intros r1 r2 now st [Hok Hlow]. split; [apply simulateTick_at_ok, Hok|].
  destruct Hok as (Hlc & _). pose proof (pct_range r1) as [Hp _].
  unfold simulateTick_at. cbn [low_price].
  set (pct := ((rv r1 * 2 - 1) * 0.004)%Q) in *.
  assert (Hnew : (1 # 10000 <= toFixed4 (close_price st * (1 + pct)))%Q).
  { apply toFixed4_floor.
    assert (Hc : (1 # 10000 <= close_price st)%Q) by lra.
    assert (Hm : ((1 # 10000) * (996 # 1000) <= close_price st * (1 + pct))%Q).
    { apply Qle_trans with (close_price st * (996 # 1000))%Q.
      - apply Qmult_le_compat_r; lra.
      - rewrite !(Qmult_comm (close_price st)).
        apply Qmult_le_compat_r; lra. }
    assert (Hk : (1 # 20000 <= (1 # 10000) * (996 # 1000))%Q)
      by (unfold Qle; cbn; lia).
    lra. }
  destruct (Qltb _ (low_price st)); assumption.
Qed.

Lemma settled_later now now' st : settled now st -> now <= now' -> settled now' st.
Proof. intros (A & B & C) H. repeat split; auto; try apply B. lia. Qed.

Lemma settled_tick r1 r2 t now st :
  settled t st -> t <= now ->
  settled now (simulateTick_at ((rv r1 * 2 - 1) * 0.004)%Q r2 now st).
Proof.
  intros (A & B & C) H. split; [exact A|]. split; [apply priced_draw_stable, B|].
  cbn. lia.
Qed.

Lemma init_store_settled d now :
  store_all (settled now) (init_instruments d now).
Proof.
  pose proof (init_store_ok d now) as Hok. unfold store_ok, store_all in *.
  rewrite Forall_forall in *. intros kv Hin. specialize (Hok kv Hin).
  assert (Hlow : Forall (fun kb : string * Base => (1 # 10000 <= b_low (snd kb))%Q)
                        BASE_OHLC).
  { repeat constructor; unfold Qle; cbn; lia. }
  rewrite Forall_forall in Hlow.
  unfold init_instruments in Hin. apply in_map_iff in Hin as ([sym b] & <- & Hb).
  cbn [snd] in *. split; [|split; [split|]].
  - cbn [symbol]. apply (in_map fst) in Hb. exact Hb.
  - exact Hok.
  - apply (Hlow _ Hb).
  - cbn [ts]. lia.
Qed.

Lemma step_settled tz ev w e w' e' :
  step tz ev w e = Ret w' e' -> store_wf (instruments w) ->
  store_all (settled (clock e)) (instruments w) ->
  store_all (settled (clock e')) (instruments w').
Proof.
  intros H Hwf Hall. pose proof (step_clock _ _ _ _ _ _ H Hwf) as Hc.
  unfold store_all in *. rewrite Forall_forall in *. intros [k v] Hin.
  destruct (step_entries _ _ _ _ _ _ H Hwf k v Hin)
    as [Hold | (st & r1 & r2 & now & A & B & C)]; cbn [snd].
  - eapply settled_later; [apply (Hall _ Hold) | exact Hc].
  - rewrite B. eapply settled_later; [|apply C].
    eapply settled_tick; [apply (Hall _ A) | lia].
Qed.

Lemma reachable_settled tz w e :
  reachable tz w e -> store_all (settled (clock e)) (instruments w).
Proof.
  intros (e0 & d & w0 & e1 & evs & Hb & Hr).
  unfold boot in Hb. unbind Hb as now ea Ha. unbind Hb as t eb Hp.
  apply ret_Ret in Hb as [<- <-].
  apply Date_now_Ret in Ha as (lag & _ & _ & Ht & Hc).
  apply peek_clock_Ret in Hp as [-> ->].
  eapply (run_invariant
            (fun w e => store_all (settled (clock e)) (instruments w)));
    [| | |exact Hr].
  - intros ev wa ea' wb eb' Hwf Hi Hs. eapply step_settled; eassumption.
  - cbn. apply init_store_wf.
  - cbn. rewrite Hc. apply init_store_settled.
Qed.

(** X7: in every reachable state each stored instrument carries a symbol of
    the universe and a time stamp that is not ahead of the clock, and its
    prices are positive: the low, and with it the open, the close and the
    high, is at least one ten-thousandth.  So [formatQuote] never meets an
    opening price of zero on the store. *)
Theorem prices_positive (tz : Z -> Z) (w : World) (e : Env) :
  reachable tz w e ->
  forall sym st,
    own (instruments w) sym = Some st ->
    In sym universe /\ ts st <= clock e /\
    (1 # 10000 <= low_price st)%Q /\ (1 # 10000 <= open_price st)%Q /\
    (1 # 10000 <= close_price st)%Q /\ (1 # 10000 <= high_price st)%Q /\
    Qnonzero (open_price st) = true.
Proof.
  intros Hr sym st Hown.
  pose proof (reachable_settled _ _ _ Hr) as Hall.
  unfold store_all in Hall. rewrite Forall_forall in Hall.
  destruct (Hall _ (own_In _ _ _ Hown)) as (_ & [(A & B & C & D) Hlow] & Hts).
  cbn [snd] in *.
  split. { apply reachable_store in Hr as [[<- _] _]. apply own_key. eauto. }
  split; [exact Hts|]. repeat split; try lra.
  apply Qnonzero_true. lra.
Qed.

Lemma prices_positive_witness :
  exists st,
    own (instruments (world_of demo_full)) "AAPL" = Some st /\
    (1 # 10000 <= low_price st)%Q.
Proof.
  eexists. split.
  - vm_compute. reflexivity.
  - apply (prices_positive utc_host _ _ demo_full_reachable "AAPL"%string).
    vm_compute. reflexivity.
Defined.

(** ** What is sent *)




Lemma snapshot_of_quotes store syms :
  forall snap,
    snapshot_of store syms = Some snap ->
    forall q, In (Some q) snap ->
              exists sym st, own store sym = Some st /\ q = formatQuote st.
Proof.
  induction syms as [|sym syms IH]; intros snap H q Hq; cbn [snapshot_of] in H.
  - inversion H; subst. contradiction.
  - destruct (read_instruments store sym) as [st| |] eqn:Er;
      try discriminate;
      destruct (snapshot_of store syms) as [qs|]; try discriminate;
      inversion H; subst; destruct Hq as [Hq|Hq];
      try discriminate; try (eapply IH; [reflexivity | exact Hq]).
    inversion Hq; subst. exists sym, st. split; [|reflexivity].
    apply read_instruments_own, Er.
Qed.

Lemma on_subscribe_outbox store now symbols s s' :
  on_subscribe store now symbols s = Returned s' ->
  exists syms snap,
    snapshot_of store syms = Some snap /\
    outbox s' = outbox s ++ [(now, Snapshot snap)].
Proof.
  unfold on_subscribe.
  destruct (negb (truthy symbols) || length_is_zero symbols).
  - cbn [set_subs meta subs].
    destruct (snapshot_of store _) as [snap|] eqn:E; [|discriminate].
    intros H. inversion H; subst. eexists. exists snap. split; [exact E|].
    reflexivity.
  - destruct symbols as [| |b|n|str|elems|props]; try discriminate.
    cbn [set_subs meta subs].
    destruct (snapshot_of store _) as [snap|] eqn:E; [|discriminate].
    intros H. inversion H; subst. eexists. exists snap. split; [exact E|].
    reflexivity.
Qed.

Lemma on_unsubscribe_outbox now symbols s s' :
  on_unsubscribe now symbols s = Returned s' ->
  outbox s' = outbox s \/ exists text, outbox s' = outbox s ++ [(now, Info text)].
Proof.
  unfold on_unsubscribe.
  destruct (negb (truthy symbols) || negb (Array_isArray symbols)).
  - intros H. inversion H; subst. left. reflexivity.
  - destruct symbols as [| |b|n|str|elems|props]; intros H; inversion H; subst;
      try (left; reflexivity).
    right. eexists. reflexivity.
Qed.

Lemma on_ping_outbox s e s' e' :
  on_ping s e = Ret s' e' ->
  exists now, outbox s' = outbox s ++ [(now, Pong now)].
Proof.
  unfold on_ping. intros H. unbind H as now e1 H1.
  apply ret_Ret in H as [<- _]. exists now. reflexivity.
Qed.

(** What a client event leaves in the logs. *)
Lemma step_client_log tz ev w e w' e' :
  ev <> ETimer -> step tz ev w e = Ret w' e' ->
  Forall (client_log w (clock e)) (sockets w').
Proof.
  intros Hev H.
  assert (Hold : forall socks,
             incl socks (sockets w) -> Forall (client_log w (clock e)) socks).
  { intros socks Hincl. apply Forall_forall. intros s Hs.
    exists (outbox s), []. split.
    - right. exists s. split; [apply Hincl, Hs | split; reflexivity].
    - split; [rewrite app_nil_r; reflexivity | constructor]. }
  assert (Hdisp : forall id h socks e1 e2,
             (forall s ea s' eb,
                 h s ea = Ret s' eb ->
                 sid s' = sid s /\
                 exists extra, outbox s' = outbox s ++ extra /\
                               Forall (client_message (instruments w) (clock e))
                                      extra) ->
             dispatch id h (sockets w) e1 = Ret socks e2 ->
             Forall (client_log w (clock e)) socks).
  { intros id h socks e1 e2 Hh Hd.
    assert (HF : Forall2
                   (fun s s' =>
                      sid s' = sid s /\
                      exists extra,
                        outbox s' = outbox s ++ extra /\
                        Forall (client_message (instruments w) (clock e)) extra)
                   (sockets w) socks).
    { eapply dispatch_rel; [|exact Hh|exact Hd].
      intros s. split; [reflexivity|]. exists []. rewrite app_nil_r.
      split; [reflexivity | constructor]. }
    apply Forall2_from in HF. eapply Forall_impl; [|exact HF].
    cbv beta. intros s' (s & Hin & Hsid & extra & Ho & Hx).
    exists (outbox s), extra. split; [right; exists s; auto|]. auto. }
  destruct ev; cbn [step] in H; try congruence.
  - unbind H as s e1 H1. apply ret_Ret in H as [<- <-]. cbn [sockets].
    apply Forall_app. split; [apply Hold, incl_refl|].
    constructor; [|constructor].
    unfold on_connection in H1. unbind H1 as now e2 H2.
    apply ret_Ret in H1 as [<- _].
    eexists [], _. split; [left; split; reflexivity|]. split; [reflexivity|].
    constructor; [exact I | constructor].
  - unbind H as now e1 H1. apply peek_clock_Ret in H1 as [-> ->].
    unbind H as socks e2 H2. apply ret_Ret in H as [<- <-]. cbn [sockets].
    eapply Hdisp; [|exact H2]. intros s ea s' eb Hc.
    apply complete_Ret in Hc as [Hc _].
    split; [apply on_subscribe_quiet in Hc as [Hs _]; exact Hs|].
    apply on_subscribe_outbox in Hc as (syms & snap & Hsnap & Ho).
    eexists. split; [exact Ho|]. constructor; [|constructor].
    split; [reflexivity|]. apply (snapshot_of_quotes _ _ _ Hsnap).
  - unbind H as now e1 H1. apply peek_clock_Ret in H1 as [-> ->].
    unbind H as socks e2 H2. apply ret_Ret in H as [<- <-]. cbn [sockets].
    eapply Hdisp; [|exact H2]. intros s ea s' eb Hc.
    apply complete_Ret in Hc as [Hc _]. split.
    { destruct (on_unsubscribe_returns (clock e) symbols s) as (s2 & E & Hs & _).
      congruence. }
    apply on_unsubscribe_outbox in Hc as [Ho|(text & Ho)].
    + exists []. rewrite app_nil_r. split; [exact Ho | constructor].
    + eexists. split; [exact Ho|]. constructor; [exact I | constructor].
  - unbind H as socks e2 H2. apply ret_Ret in H as [<- <-]. cbn [sockets].
    eapply Hdisp; [|exact H2]. intros s ea s' eb Hc.
    split; [apply on_ping_quiet in Hc as [Hs _]; exact Hs|].
    apply on_ping_outbox in Hc as (now & Ho).
    eexists. split; [exact Ho|]. constructor; [exact I | constructor].
  - apply ret_Ret in H as [<- <-]. cbn [sockets]. apply Hold.
    intros s Hs. apply filter_In in Hs as [Hs _]. exact Hs.
Qed.






(** ** Connections and their ids *)






(** ** The market gate on a host with a constant offset *)

Lemma gate_window (c x : Z) :
  isMarketOpenIST_at (fun _ => c) x
  = (16200000 <=? x mod 86400000) && (x mod 86400000 <? 48600000).
Proof.
  unfold isMarketOpenIST_at, getHours, getMinutes, getTime_local,
    nowInIST_at, IST_OFFSET_MINUTES.
  replace (x + c * 60000 + 330 * 60000 - c * 60000) with (x + 330 * 60000)
    by lia.
  rewrite minutes_of_day, Z.div_add by lia.
  apply eq_true_iff_eq. rewrite !andb_true_iff, !Z.leb_le, !Z.ltb_lt.
  Z.to_euclidean_division_equations; lia.
Qed.

(** X10: on a host whose zone offset never changes, whatever that offset
    is, the market gate does not depend on the host: it is open exactly
    when the time of day in UTC lies from 04:30 to 13:30, and so it repeats
    every 24 hours. *)
Theorem gate_constant_offset (c now : Z) :
  isMarketOpenIST_at (fun _ => c) now
  = (16200000 <=? now mod 86400000) && (now mod 86400000 <? 48600000) /\
  isMarketOpenIST_at (fun _ => c) (now + 86400000)
  = isMarketOpenIST_at (fun _ => c) now.
Proof.
  split; [apply gate_window|]. rewrite !gate_window.
  replace (now + 86400000) with (now + 1 * 86400000) by lia.
  rewrite Z.mod_add by lia. reflexivity.
Qed.

(** X11: outside market hours nothing is broadcast.  On a host with a
    constant zone offset, a turn of the timer during which the time of day
    in UTC stays outside 04:30 to 13:30 moves no price and sends nothing: it
    only sets the timer to 30 seconds after the time at which the turn
    began. *)
Theorem closed_market_silent (c : Z) (w : World) (e : Env) (w' : World)
    (e' : Env) :
  store_wf (instruments w) ->
  step (fun _ => c) ETimer w e = Ret w' e' ->
  (forall t, Z.max (clock e) (due w) <= t <= clock e' ->
             t mod 86400000 < 16200000 \/ 48600000 <= t mod 86400000) ->
  instruments w' = instruments w /\ sockets w' = sockets w /\
  due w' = Z.max (clock e) (due w) + 30000.
Proof.
  intros Hwf H Hclosed. cbn [step] in H. unbind H as u e1 H1.
  unfold wait_until in H1. inversion H1; subst u e1. clear H1.
  set (e1 := mkEnv (rnd e) (lags e) (Z.max (clock e) (due w))) in *.
  pose proof H as Htick.
  apply tick_cases in H as (e2 & open & Hgate & H).
  pose proof Hgate as Hg.
  apply isMarketOpenIST_Ret in Hg as (Hopen & Hc2 & _).
  rewrite gate_window in Hopen. destruct open.
  - exfalso. destruct (tick_open _ _ _ _ _ _ Hgate Htick)
      as (r & updates & Hcyc & _).
    pose proof (open_cycle_facts _ _ _ _ _ _ _ Hwf Hcyc) as Hf.
    assert (Hc3 : clock e2 <= clock e') by apply Hf.
    destruct (Hclosed (clock e2)) as [Hlo|Hhi];
      [cbn [clock] in Hc2; change (clock e1) with (Z.max (clock e) (due w)) in Hc2;
       lia | |];
      symmetry in Hopen; apply andb_true_iff in Hopen as [A B];
      apply Z.leb_le in A; apply Z.ltb_lt in B; lia.
  - destruct H as (Hi & Hs & Hd & _). split; [exact Hi|]. split; [exact Hs|].
    exact Hd.
Qed.

Lemma closed_market_silent_witness :
  due (world_of (step utc_host ETimer (mkWorld seeded [] 0 0)
                   (mkEnv [] [7%N] 1767300000000)))
  = 1767300000000 + 30000.
Proof.
  assert (Hs : step utc_host ETimer (mkWorld seeded [] 0 0)
                 (mkEnv [] [7%N] 1767300000000)
               = Ret (world_of (step utc_host ETimer (mkWorld seeded [] 0 0)
                                  (mkEnv [] [7%N] 1767300000000)))
                     (mkEnv [] [] 1767300000007))
    by (vm_compute; reflexivity).
  apply (closed_market_silent 0 (mkWorld seeded [] 0 0)
           (mkEnv [] [7%N] 1767300000000) _ _
           (init_store_wf "2026-01-02" 1767335400000) Hs).
  cbn [clock due]. intros t Ht. right.
  replace t with (74400000 + (t - 1767300000000) + 20454 * 86400000) by lia.
  rewrite Z.mod_add by lia. rewrite Z.mod_small; lia.
Defined.

(** ** The selection loop *)




(** ** What client events cannot do *)

Lemma client_message_no_update store now extra tm :
  Forall (client_message store now) extra -> In tm extra ->
  is_update tm = false.
Proof.
  intros Hx Hin. rewrite Forall_forall in Hx. specialize (Hx _ Hin).
  unfold client_message in Hx. unfold is_update.
  destruct (snd tm); try reflexivity. contradiction.
Qed.

(** X13: connections, subscriptions, pings and disconnects neither move a
    price nor touch the pending timer, and they send no [update]: after any
    run of events without a turn of the timer, the store and the due time
    are what they were, and every [update] in the log of a connection was
    already in the log of the connection with that id before the run. *)
Theorem client_events_inert (tz : Z -> Z) (evs : list Event) (w : World)
    (e : Env) (w' : World) (e' : Env) :
  Forall (fun ev => ev <> ETimer) evs ->
  run tz evs w e = Ret w' e' ->
  instruments w' = instruments w /\ due w' = due w /\
  forall s' tm,
    In s' (sockets w') -> In tm (outbox s') -> is_update tm = true ->
    exists s, In s (sockets w) /\ sid s = sid s' /\ In tm (outbox s).
Proof.
  intros Hevs. revert w e.
  induction Hevs as [|ev rest Hev _ IH]; intros w e H; simpl in H.
  - apply ret_Ret in H as [<- _]. split; [reflexivity|]. split; [reflexivity|].
    intros s' tm Hs Htm _. exists s'. auto.
  - unbind H as w1 e1 H1.
    destruct (IH _ _ H) as (Hi & Hd & Hup).
    destruct (step_instruments _ _ _ _ _ _ H1 Hev) as [Hi1 Hd1].
    split; [congruence|]. split; [congruence|].
    intros s' tm Hs' Htm Hu.
    destruct (Hup s' tm Hs' Htm Hu) as (s1 & Hs1 & Hsid1 & Htm1).
    pose proof (step_client_log _ _ _ _ _ _ Hev H1) as Hlog.
    rewrite Forall_forall in Hlog.
    destruct (Hlog s1 Hs1) as (old & extra & Hfrom & Ho & Hx).
    rewrite Ho in Htm1. apply in_app_iff in Htm1 as [Hold|Hnew].
    + destruct Hfrom as [[-> _]|(s & Hs & Hsid & ->)]; [contradiction|].
      exists s. split; [exact Hs|]. split; [congruence | exact Hold].
    + rewrite (client_message_no_update _ _ _ _ Hx Hnew) in Hu. discriminate.
Qed.

Lemma client_events_inert_witness :
  instruments (world_of demo_before) = seeded.
Proof.
  assert (H : run utc_host demo_events
                (mkWorld seeded [] 1767335400000 0)
                (mkEnv demo_rnd [5; 0; 1; 0; 0; 2; 1; 3]%N 1767335400000)
              = Ret (world_of demo_before) (env_of demo_before))
    by (vm_compute; reflexivity).
  apply (client_events_inert utc_host demo_events
           (mkWorld seeded [] 1767335400000 0) _ _ _) in H.
  - apply H.
  - unfold demo_events. repeat constructor; discriminate.
Defined.

(** ** What can throw *)









(** ** The rate state *)

(** X15: the limit of 50 sends per window is never reached.  In every
    reachable state the window of each connection did not start in the
    future and has admitted at most three checks, and an admission check on
    it admits at whatever time it is made. *)
Theorem rate_state_bounded (tz : Z -> Z) (w : World) (e : Env) (s : Socket) :
  reachable tz w e -> In s (sockets w) ->
  lastWindowStart (meta s) <= clock e /\
  0 <= sentInWindow (meta s) <= 3 /\
  forall now, fst (allowSendRate_at now (meta s)) = true.
Proof.
  intros Hr Hs. pose proof (reachable_fresh _ _ _ Hr) as Hf.
  unfold world_fresh in Hf. rewrite Forall_forall in Hf.
  destruct (Hf s Hs) as [Hstart _]. split; [exact Hstart|].
  split; [apply (reachable_admits tz w e s 0 Hr Hs)|].
  intros now. apply (reachable_admits tz w e s now Hr Hs).
Qed.

Lemma rate_state_bounded_witness :
  0 <= sentInWindow (meta (demo_socket 0 demo_full)) <= 3.
Proof.
  apply (rate_state_bounded utc_host _ _ (demo_socket 0 demo_full)
           demo_full_reachable).
  vm_compute. left. reflexivity.
Defined.

(** ** Subscription sets *)








(** ** The pace of the cycles *)

Lemma run_spaced tz evs :
  forall w e w' e',
    store_wf (instruments w) -> run tz evs w e = Ret w' e' ->
    due w + BROADCAST_INTERVAL_MS * timer_turns evs <= due w' /\
    clock e <= clock e' /\
    (1 <= timer_turns evs ->
     due w + BROADCAST_INTERVAL_MS * (timer_turns evs - 1) <= clock e').
Proof.
  unfold timer_turns, BROADCAST_INTERVAL_MS.
  induction evs as [|ev rest IH]; intros w e w' e' Hwf H; simpl in H.
  - apply ret_Ret in H as [<- <-]. cbn. lia.
  - unbind H as w1 e1 H1.
    pose proof (step_store _ _ _ _ _ _ H1 Hwf) as [Hwf1 _].
    pose proof (step_clock _ _ _ _ _ _ H1 Hwf) as Hc1.
    destruct (IH _ _ _ _ Hwf1 H) as (Hd & Hc & Hk).
    destruct (Event_is_timer ev) as [->|Hev].
    + cbn [filter List.length]. rewrite Nat2Z.inj_succ.
      apply step_timer in H1 as (e2 & Hdue & _ & H1).
      apply tick_effects in H1 as (Hc2 & Hcase); [|exact Hwf].
      assert (Hd1 : due w + 800 <= due w1).
      { unfold BROADCAST_INTERVAL_MS in Hcase.
        destruct Hcase as [[_ ->]|[-> _]]; lia. }
      assert (Hcl : due w <= clock e1) by lia.
      split; [lia|]. split; [lia|]. intros _.
      destruct (Z.eq_dec
                  (Z.of_nat
                     (List.length
                        (filter (fun ev => match ev with
                                           | ETimer => true
                                           | _ => false
                                           end) rest))) 0) as [E|E]; lia.
    + destruct (step_instruments _ _ _ _ _ _ H1 Hev) as [_ Hd1].
      assert (Ef : filter (fun ev => match ev with
                                     | ETimer => true
                                     | _ => false
                                     end) (ev :: rest)
                   = filter (fun ev => match ev with
                                       | ETimer => true
                                       | _ => false
                                       end) rest)
        by (destruct ev; try reflexivity; congruence).
      rewrite Ef. lia.
Qed.

(** X17: cycles cannot come faster than the broadcast interval.  Along any
    run from a well-formed store, each turn of the timer moves the due time
    of the next one on by at least 800 ms, so a run that holds [n] turns of
    the timer ends with a clock that is at least [800 * (n - 1)] ms past the
    time at which the first of them was due. *)
Theorem cycles_spaced (tz : Z -> Z) (evs : list Event) (w : World) (e : Env)
    (w' : World) (e' : Env) :
  store_wf (instruments w) ->
  run tz evs w e = Ret w' e' ->
  due w + BROADCAST_INTERVAL_MS * timer_turns evs <= due w' /\
  (1 <= timer_turns evs ->
   due w + BROADCAST_INTERVAL_MS * (timer_turns evs - 1) <= clock e').
Proof.
  intros Hwf H. destruct (run_spaced _ _ _ _ _ _ Hwf H) as (A & _ & B). auto.
Qed.

Lemma cycles_spaced_witness :
  1767335400000 + 800 <= due (world_of demo_full).
Proof.
  assert (H : run utc_host (demo_events ++ [ETimer])
                (mkWorld seeded [] 1767335400000 0)
                (mkEnv demo_rnd [5; 0; 1; 0; 0; 2; 1; 3]%N 1767335400000)
              = Ret (world_of demo_full) (env_of demo_full))
    by (vm_compute; reflexivity).
  apply (cycles_spaced utc_host _ (mkWorld seeded [] 1767335400000 0) _ _ _
           (init_store_wf "2026-01-02" 1767335400000)) in H.
  destruct H as [H _]. exact H.
Defined.
